(** * Table.tsx: column order, width commits, filtering, paging, new rows

    A shallow embedding of the state handling of [src/components/Table.tsx]
    (the [Table] React component of obsidian-db-folder) and the properties
    its specification states about it.

    JavaScript arrays are lists held in a store and reached through
    references, so that the in-place effect of [splice] is visible to every
    holder of the reference.  Numbers are integers ([Z]): widths and offsets
    are pixel counts, indices and lengths are array positions.  Time is
    counted in milliseconds ([nat]). *)

From Stdlib Require Import Ascii.
From stdpp Require Import gmap strings list fin_maps pretty.

(** ** JavaScript arrays *)

Section js_array.
Context {A : Type} `{EqDecision A}.

(** [Array.prototype.indexOf]: the first index holding [x], or [-1]. *)
Fixpoint indexOf_from (i : Z) (x : A) (l : list A) : Z :=
  match l with
  | [] => (-1)%Z
  | y :: l' => if decide (y = x) then i else indexOf_from (i + 1)%Z x l'
  end.

Definition indexOf (x : A) (l : list A) : Z := indexOf_from 0%Z x l.

(** The start position [splice] works from: a negative [start] counts from
    the end, and either way the position is brought into [0, length]. *)
Definition actualStart (start : Z) (l : list A) : nat :=
  let len := Z.of_nat (length l) in
  Z.to_nat (if (start <? 0)%Z then Z.max (len + start) 0 else Z.min start len).

(** [Array.prototype.splice(start, deleteCount, ...items)]: the removed
    elements, and the contents of the array afterwards. *)
Definition splice (start deleteCount : Z) (items : list A) (l : list A)
  : list A * list A :=
  let s := actualStart start l in
  let dc := Z.to_nat (Z.min (Z.max deleteCount 0) (Z.of_nat (length l - s))) in
  (take dc (drop s l), take s l ++ items ++ drop (s + dc) l).
End js_array.

(** A cell of a [string[]] at run time: a string, or [undefined] ([None]),
    which is what [removed[0] as string] is when nothing was removed. *)
Abbreviation cell := (option string).

Definition ids (l : list string) : list cell := Some <$> l.

(** ** The array store *)

(** References to arrays, and the store they point into. *)
Abbreviation ref := nat.
Abbreviation store := (gmap nat (list cell)).

(** Computations over the store; [None] is a dangling reference. *)
Definition M (R : Type) : Type := store -> option (R * store).

#[global] Instance M_ret : MRet M := fun R (r : R) h => Some (r, h).

#[global] Instance M_bind : MBind M := fun R S (k : R -> M S) (m : M R) h =>
  match m h with
  | Some (r, h') => k r h'
  | None => None
  end.

(** [a.indexOf(x)] *)
Definition arr_indexOf (a : ref) (x : string) : M Z :=
  fun h => match h !! a with
           | Some l => Some (indexOf (Some x) l, h)
           | None => None
           end.

(** [a.splice(start, deleteCount, ...items)]: updates the array in place and
    returns the removed elements. *)
Definition arr_splice (a : ref) (start deleteCount : Z) (items : list cell)
  : M (list cell) :=
  fun h => match h !! a with
           | Some l => let '(removed, l') := splice start deleteCount items l in
                       Some (removed, <[a := l']> h)
           | None => None
           end.

(** [[...a]]: a new array with the elements of [a]. *)
Definition arr_copy (a : ref) : M ref :=
  fun h => match h !! a with
           | Some l => let r := fresh (dom h) in Some (r, <[r := l]> h)
           | None => None
           end.

(** [xs[0]]: [undefined] on an empty array. *)
Definition first_elem (xs : list cell) : cell :=
  match xs with
  | x :: _ => x
  | [] => None
  end.

(** ** reorderColumn (Table.tsx, lines 108-119)

    The arguments of the outer [splice] are evaluated left to right: the
    index of the target is taken first, on the array as it was passed, then
    the inner [splice] removes the dragged id. *)
Definition reorderColumn (draggedColumnId targetColumnId : string)
    (columnOrder : ref) : M ref :=
  targetIndex ← arr_indexOf columnOrder targetColumnId;
  draggedIndex ← arr_indexOf columnOrder draggedColumnId;
  removed ← arr_splice columnOrder draggedIndex 1 [];
  _ ← arr_splice columnOrder targetIndex 0 [first_elem removed];
  arr_copy columnOrder.

(** What [reorderColumn] leaves in the array it was given, as a function of
    what the array held. *)
Definition reordered (draggedColumnId targetColumnId : string)
    (l : list cell) : list cell :=
  let targetIndex := indexOf (Some targetColumnId) l in
  let '(removed, l1) := splice (indexOf (Some draggedColumnId) l) 1 [] l in
  (splice targetIndex 0 [first_elem removed] l1).2.

(** [l] without the first occurrence of [d]. *)
Fixpoint remove_first (d : string) (l : list string) : list string :=
  match l with
  | [] => []
  | x :: l' => if decide (x = d) then l' else x :: remove_first d l'
  end.

(** The same on a sequence of ids, index by index: the dragged id is taken
    out at its first position and put back at the index the target id had
    before the removal. *)
Definition move_to_target_index (d t : string) (l : list string) : list string :=
  let i := Z.to_nat (indexOf t l) in
  take i (remove_first d l) ++ d :: drop i (remove_first d l).

(** The specification's wording: the dragged id is taken out and put back
    immediately before the target id. *)
Fixpoint insert_before (d t : string) (l : list string) : list string :=
  match l with
  | [] => []
  | x :: l' => if decide (x = t) then d :: x :: l' else x :: insert_before d t l'
  end.

Definition reorder_spec (d t : string) (l : list string) : list string :=
  insert_before d t (remove_first d l).

(** [d] stands immediately before [t] in [l]. *)
Definition immediately_before (d t : string) (l : list string) : Prop :=
  exists pre post, l = pre ++ d :: t :: post.

(** ** Column definitions and their size limits (Table.tsx, lines 45-52) *)

(** A column definition: [minSize] and [maxSize] are optional, as in the
    table library's [ColumnDef]. *)
Record TableColumn := {
  col_id : string;
  col_key : string;
  col_width : Z;
  col_minSize : option Z;
  col_maxSize : option Z;
}.

Record DefaultColumn := {
  minSize : Z;
  maxSize : Z;
  enableResizing : bool;
}.

Section limits.
(** [DatabaseLimits.MIN_COLUMN_HEIGHT] and [DatabaseLimits.MAX_COLUMN_HEIGHT]
    come from [helpers/Constants]. *)
Variables MIN_COLUMN_HEIGHT MAX_COLUMN_HEIGHT : Z.

Definition defaultColumn : DefaultColumn :=
  {| minSize := MIN_COLUMN_HEIGHT;
     maxSize := MAX_COLUMN_HEIGHT;
     enableResizing := true |}.

(** The limits of a column: its own where it has them, those of
    [defaultColumn] otherwise. *)
Definition minWidth (c : TableColumn) : Z :=
  default (minSize defaultColumn) (col_minSize c).

Definition maxWidth (c : TableColumn) : Z :=
  default (maxSize defaultColumn) (col_maxSize c).

Definition clamp (lo hi w : Z) : Z := Z.min (Z.max lo w) hi.

(** Modelled from the spec: [columnActions.alterColumnSize], the column
    store's action that the specification calls [commitWidth], is not part
    of Table.tsx.  By the specification it clamps the width to
    [minWidth, maxWidth] and writes it into the persisted width of the
    column with that id. *)
Definition alterColumnSize (columnId : string) (w : Z)
    (columns : list TableColumn) : list TableColumn :=
  (fun c => if decide (col_id c = columnId)
            then {| col_id := col_id c; col_key := col_key c;
                    col_width := clamp (minWidth c) (maxWidth c) w;
                    col_minSize := col_minSize c;
                    col_maxSize := col_maxSize c |}
            else c) <$> columns.
End limits.

(** ** Column order kept level with the columns (Table.tsx, lines 120-123) *)

(** Modelled from the spec: [columnsInfo.getValueOfAllColumnsAsociatedWith]
    belongs to the column store, not to Table.tsx; asked for ["id"] it is the
    registry's sequence of column ids. *)
Definition getValueOfAllColumnsAsociatedWith_id (columns : list TableColumn)
  : list string := col_id <$> columns.

(** The [columnOrder] state a render pass leaves for the next one. *)
Definition render_columnOrder (columnOrder : list string)
    (columns : list TableColumn) : list string :=
  if decide (length columnOrder ≠ length columns)
  then getValueOfAllColumnsAsociatedWith_id columns
  else columnOrder.

(** ** Column sizing and the delayed commit (Table.tsx, lines 99-102, 204-236) *)

(** [table.options.state.columnSizingInfo]: [isResizingColumn] is [false]
    ([None]) or the id of the column being resized. *)
Record ColumnSizingInfo := {
  isResizingColumn : option string;
  deltaOffset : Z;
  columnSizingStart : list (string * Z);
}.

(** A callback handed to [setTimeout]: when it is due it calls
    [columnActions.alterColumnSize(commit_column, commit_width)]. *)
Record PendingCommit := {
  due : nat;
  commit_column : string;
  commit_width : Z;
}.

(** A call of [columnActions.alterColumnSize] that was made. *)
Record CommitCall := {
  call_time : nat;
  call_column : string;
  call_width : Z;
}.

(** The component state the sizing handler works on, with the clock and the
    pending timers of the event loop.  Timer handles are positive numbers, so
    a stored handle is always truthy; [persistSizingTimeout] starts as
    [null] ([None]).  The handler reads the state as the last render left it:
    one render pass takes place between two events. *)
Record TableState := {
  now : nat;
  timers : list (positive * PendingCommit);
  nextTimer : positive;
  alterColumnSize_calls : list CommitCall;
  persistSizingTimeout : option positive;
  columnSizing : gmap string Z;
}.

Definition initialState (t0 : nat) (sizing : gmap string Z) : TableState :=
  {| now := t0; timers := []; nextTimer := 1%positive;
     alterColumnSize_calls := []; persistSizingTimeout := None;
     columnSizing := sizing |}.

(** [clearTimeout(h)]: forgets the timer; nothing happens if it is gone. *)
Definition clearTimeout (h : positive) (st : TableState) : TableState :=
  {| now := now st;
     timers := filter (fun p => p.1 ≠ h) (timers st);
     nextTimer := nextTimer st;
     alterColumnSize_calls := alterColumnSize_calls st;
     persistSizingTimeout := persistSizingTimeout st;
     columnSizing := columnSizing st |}.

(** [setTimeout(() => columnActions.alterColumnSize(column, w), delay)] *)
Definition setTimeout (column : string) (w : Z) (delay : nat) (st : TableState)
  : positive * TableState :=
  (nextTimer st,
   {| now := now st;
      timers := timers st ++
                [(nextTimer st,
                  {| due := now st + delay; commit_column := column;
                     commit_width := w |})];
      nextTimer := Pos.succ (nextTimer st);
      alterColumnSize_calls := alterColumnSize_calls st;
      persistSizingTimeout := persistSizingTimeout st;
      columnSizing := columnSizing st |}).

Definition setPersistSizingTimeout (h : positive) (st : TableState) : TableState :=
  {| now := now st; timers := timers st; nextTimer := nextTimer st;
     alterColumnSize_calls := alterColumnSize_calls st;
     persistSizingTimeout := Some h;
     columnSizing := columnSizing st |}.

Definition setColumnSizing (list : gmap string Z) (st : TableState) : TableState :=
  {| now := now st; timers := timers st; nextTimer := nextTimer st;
     alterColumnSize_calls := alterColumnSize_calls st;
     persistSizingTimeout := persistSizingTimeout st;
     columnSizing := list |}.

(** The handler given as [onColumnSizingChange].  [None] is the TypeError of
    reading [columnToUpdate[0]] when [find] found no entry. *)
Definition onColumnSizingChange (info : ColumnSizingInfo)
    (updater : gmap string Z -> gmap string Z) (st : TableState)
  : option TableState :=
  let list := updater (columnSizing st) in
  columnToUpdate ← List.find
    (fun c => bool_decide (Some c.1 = isResizingColumn info))
    (columnSizingStart info);
  let list := <[columnToUpdate.1 := (columnToUpdate.2 + deltaOffset info)%Z]> list in
  let st := match persistSizingTimeout st with
            | Some h => clearTimeout h st
            | None => st
            end in
  let '(h, st) := setTimeout columnToUpdate.1
                    (columnToUpdate.2 + deltaOffset info)%Z 1500 st in
  let st := setPersistSizingTimeout h st in
  Some (setColumnSizing list st).

(** The event loop lets [dt] milliseconds pass: the timers that come due
    run, in the order they were armed, and are gone. *)
Definition advance (dt : nat) (st : TableState) : TableState :=
  let t := now st + dt in
  {| now := t;
     timers := filter (fun p => t < due p.2) (timers st);
     nextTimer := nextTimer st;
     alterColumnSize_calls :=
       alterColumnSize_calls st ++
       ((fun p => {| call_time := due p.2; call_column := commit_column p.2;
                     call_width := commit_width p.2 |})
          <$> filter (fun p => due p.2 ≤ t) (timers st));
     persistSizingTimeout := persistSizingTimeout st;
     columnSizing := columnSizing st |}.

(** A column-sizing event: it arrives [after] milliseconds after the one
    before it. *)
Record SizingEvent := {
  after : nat;
  info : ColumnSizingInfo;
  updater : gmap string Z -> gmap string Z;
}.

Fixpoint run (evs : list SizingEvent) (st : TableState) : option TableState :=
  match evs with
  | [] => Some st
  | e :: evs' =>
      st' ← onColumnSizingChange (info e) (updater e) (advance (after e) st);
      run evs' st'
  end.

(** The event resizes column [c], whose width was [start] when the drag
    began. *)
Definition resizes (c : string) (start : Z) (e : SizingEvent) : Prop :=
  isResizingColumn (info e) = Some c ∧
  List.find (fun p => bool_decide (Some p.1 = isResizingColumn (info e)))
    (columnSizingStart (info e)) = Some (c, start).

(** ** The global filter (Table.tsx, lines 97, 196, 238-240, 249) *)

(** Cell values. *)
Inductive Literal :=
  | LString (s : string)
  | LNumber (n : Z)
  | LBoolean (b : bool).

Record RowDataType := {
  row_fields : gmap string Literal;
}.

(** [String(v)]; a field the row does not have shows as the empty string. *)
Definition stringify (v : option Literal) : string :=
  match v with
  | Some (LString s) => s
  | Some (LNumber n) => pretty n
  | Some (LBoolean true) => "true"
  | Some (LBoolean false) => "false"
  | None => ""
  end.

Definition lower_ascii (a : ascii) : ascii :=
  let n := nat_of_ascii a in
  if bool_decide (65 ≤ n ≤ 90) then ascii_of_nat (n + 32) else a.

(** [s.toLowerCase()] for a string of ASCII characters, where only the
    letters A-Z change; used for the examples. *)
Fixpoint toLowerCase_ascii (s : string) : string :=
  match s with
  | EmptyString => EmptyString
  | String a s' => String (lower_ascii a) (toLowerCase_ascii s')
  end.

(** [s.includes(sub)] *)
Fixpoint includes (s sub : string) : bool :=
  String.prefix sub s ||
  match s with
  | EmptyString => false
  | String _ s' => includes s' sub
  end.

(** [getColumnCanGlobalFilter: (column) => true], the option that makes the
    table use all columns when filtering. *)
Definition getColumnCanGlobalFilter (column : TableColumn) : bool := true.

(** [column.getIsVisible()] under the [columnVisibility] state: a column is
    hidden only when the record says [false] for it. *)
Definition getIsVisible (columnVisibility : gmap string bool)
    (column : TableColumn) : bool :=
  default true (columnVisibility !! col_id column).

Section global_filter.
(** [String.prototype.toLowerCase], whatever it does to the letters of the
    text, and whether a column has an accessor ([!!column.accessorFn]), which
    the column definitions of the store decide. *)
Variable toLowerCase : string -> string.
Variable hasAccessorFn : TableColumn -> bool.

(** Modelled from the spec: [globalDatabaseFilterFn]
    ([components/reducers/TableFilterFlavours]) is not part of Table.tsx.  By
    the specification a cell passes when its value, stringified, contains
    the filter text, letter case apart. *)
Definition globalDatabaseFilterFn (row : RowDataType) (columnId : string)
    (filterValue : string) : bool :=
  includes (toLowerCase (stringify (row_fields row !! columnId)))
           (toLowerCase filterValue).

(** [column.getCanGlobalFilter()] of the table, with the options Table.tsx
    sets: what [getColumnCanGlobalFilter] lets through and has an
    accessor. *)
Definition getCanGlobalFilter (column : TableColumn) : bool :=
  getColumnCanGlobalFilter column && hasAccessorFn column.

(** The filtered row model of the table, with the options Table.tsx sets: no
    column filters and the global filter text of the [globalFilter] state.
    A falsy filter text (the empty string) filters nothing, and neither does
    a filter text when no column can be filtered globally; otherwise a row
    stays when the filter function passes one of the columns that can, in
    the order of the columns. *)
Definition getFilteredRowModel (columns : list TableColumn)
    (rows : list RowDataType) (globalFilter : string) : list RowDataType :=
  if decide (globalFilter = "") then rows
  else
    let globallyFilterableColumns :=
      filter (fun c => getCanGlobalFilter c) columns in
    if decide (length globallyFilterableColumns = 0) then rows
    else
      filter (fun row =>
                existsb (fun column =>
                           globalDatabaseFilterFn row (col_id column) globalFilter)
                        globallyFilterableColumns)
             rows.

(** The condition the specification gives for a row to survive: some visible
    column's value contains the filter text. *)
Definition matches_visible_column (columnVisibility : gmap string bool)
    (columns : list TableColumn) (row : RowDataType) (filterText : string)
  : Prop :=
  ∃ c, c ∈ columns ∧ getIsVisible columnVisibility c = true ∧
       globalDatabaseFilterFn row (col_id c) filterText = true.
End global_filter.

(** ** Pagination (Table.tsx, lines 250-254) *)

Record PaginationState := {
  pageIndex : nat;
  pageSize : nat;
}.

(** [autoResetPageIndex: false] *)
Definition autoResetPageIndex : bool := false.

(** The page index after the rows changed: the table goes back to the first
    page only when [autoResetPageIndex] asks for it. *)
Definition afterDataChange (p : PaginationState) : PaginationState :=
  if autoResetPageIndex
  then {| pageIndex := 0; pageSize := pageSize p |}
  else p.

(** The pagination row model: [rows.slice(pageStart, pageEnd)]. *)
Definition getPaginationRowModel {R} (rows : list R) (p : PaginationState)
  : list R :=
  let pageStart := pageSize p * pageIndex p in
  take (pageSize p) (drop pageStart rows).

(** The index of the last page that has rows on it ([0] without rows). *)
Definition lastValidPage (rowCount size : nat) : nat := (rowCount - 1) / size.

(** ** The new-row input (Table.tsx, lines 257-270, 407-421) *)

(** What the handlers do, in the order they do it. *)
Inductive Effect :=
  | CallAddRow (name : string)
  | CallSetInputNewRow (value : string)
  | WriteNewRowRef (value : string).

Record NewRowState := {
  inputNewRow : string;
  newRowRef_value : string;
  rows : list string;
  effects : list Effect;
}.

Section add_row.
(** [dataActions.addRow], with the columns and the settings it is given:
    the row store's action, from outside Table.tsx. *)
Variable addRow : string -> list string -> list string.

Definition handleAddNewRow (st : NewRowState) : NewRowState :=
  {| inputNewRow := "";
     newRowRef_value := "";
     rows := addRow (inputNewRow st) (rows st);
     effects := effects st ++
                [CallAddRow (inputNewRow st); CallSetInputNewRow "";
                 WriteNewRowRef ""] |}.

Definition handleKeyDown (key : string) (st : NewRowState) : NewRowState :=
  if decide (key = "Enter") then handleAddNewRow st else st.

(** [onChange] of the input: the text typed so far. *)
Definition onChange (value : string) (st : NewRowState) : NewRowState :=
  {| inputNewRow := value;
     newRowRef_value := value;
     rows := rows st;
     effects := effects st ++ [CallSetInputNewRow value] |}.
End add_row.

(** A name of white space only. *)
Definition white_space (a : ascii) : bool :=
  bool_decide (a = " "%char ∨ a = "009"%char ∨ a = "010"%char ∨ a = "013"%char).

Fixpoint blank (s : string) : bool :=
  match s with
  | EmptyString => true
  | String a s' => white_space a && blank s'
  end.

(** Modelled from the spec: [addRow] of the row store creates no row for an
    empty or blank name, and a row of that name otherwise. *)
Definition addRow_spec (name : string) (rows : list string) : list string :=
  if blank name then rows else rows ++ [name].

(** ** States in which the commit timer is pending *)

(** At most one timer is pending, and it is the one whose handle the
    component holds. *)
Definition one_timer (st : TableState) : Prop :=
  timers st = [] ∨
  ∃ h pc, timers st = [(h, pc)] ∧ persistSizingTimeout st = Some h.

(** Exactly the commit [pc] is pending. *)
Definition armed (st : TableState) (pc : PendingCommit) : Prop :=
  ∃ h, timers st = [(h, pc)] ∧ persistSizingTimeout st = Some h.

(** The commit an event asks for. *)
Definition commit_of (e : SizingEvent) (pc : PendingCommit) : Prop :=
  ∀ c s, resizes c s e ->
         commit_column pc = c ∧ commit_width pc = (s + deltaOffset (info e))%Z.

(** ** Data for the examples *)

(** An array store with one array, for the examples. *)
Definition abc_store : store := {[ 7 := ids ["a"; "b"; "c"] ]}.

(** A sizing event of a drag on column [c] that began at width [start]. *)
Definition drag (c : string) (start : Z) (dt : nat) (delta : Z) : SizingEvent :=
  {| after := dt;
     info := {| isResizingColumn := Some c; deltaOffset := delta;
                columnSizingStart := [(c, start)] |};
     updater := fun sizing => sizing |}.

(** Two columns, one with limits of its own. *)
Definition title_column : TableColumn :=
  {| col_id := "title"; col_key := "title"; col_width := 100;
     col_minSize := None; col_maxSize := None |}.

Definition tags_column : TableColumn :=
  {| col_id := "tags"; col_key := "tags"; col_width := 80;
     col_minSize := Some 50%Z; col_maxSize := Some 120%Z |}.

(** A note whose tags are hidden. *)
Definition alpha_note : RowDataType :=
  {| row_fields := {[ "title" := LString "Note"; "tags" := LString "Alpha" ]} |}.

Definition tags_hidden : gmap string bool := {[ "tags" := false ]}.

(** ** What an event proposes to commit *)

(** The column and the width the handler passes on for an event: the first
    entry of [columnSizingStart] for the column being resized, its start
    width plus the offset.  [None] when there is no such entry. *)
Definition proposal (e : SizingEvent) : option (string * Z) :=
  columnToUpdate ← List.find
    (fun c => bool_decide (Some c.1 = isResizingColumn (info e)))
    (columnSizingStart (info e));
  Some (columnToUpdate.1, (columnToUpdate.2 + deltaOffset (info e))%Z).

(** A call of [alterColumnSize] without its time. *)
Definition call_args (c : CommitCall) : string * Z :=
  (call_column c, call_width c).

(** ** Links: hovering and clicking (Table.tsx, lines 129-190) *)

(** An element of the page, with what the handlers ask of it: [tagName],
    [hasClass] and the [href] attribute ([None] when it has none). *)
Record Element := {
  tagName : string;
  classes : list string;
  href : option string;
}.

Definition hasClass (el : Element) (cls : string) : bool :=
  bool_decide (cls ∈ classes el).

(** A mouse event; [ev_closest_a] is [e.target.closest("a")], the nearest
    anchor around the target as the page has it. *)
Record MouseEvent := {
  ev_type : string;
  ev_button : Z;
  ev_ctrlKey : bool;
  ev_metaKey : bool;
  ev_target : Element;
  ev_closest_a : option Element;
}.

(** What the link handlers do, in the order they do it. *)
Inductive LinkEffect :=
  | TriggerHoverLink (linktext : option string) (sourcePath : string)
  | PreventDefault
  | OpenWithDefaultApp (path : string)
  | OpenLinkText (destination : option string) (sourcePath : string)
                 (inNewLeaf : bool).

Section links.
(** The view ([None] when there is none) with the path of its file, the path
    of the state manager's file, and the two services the click handler
    asks.  [getNormalizedPath(href)] is given the attribute as it is, also
    when there is none, and may raise ([None]); otherwise it gives the
    [root] of the path.  [metadataCache.getFirstLinkpathDest] gives the path
    of the file found or nothing. *)
Variable view : option string.
Variable filePath : string.
Variable getNormalizedPath_root : option string -> option string.
Variable getFirstLinkpathDest : string -> string -> option string.

Definition onMouseOver (e : MouseEvent) : list LinkEffect :=
  let targetEl := ev_target e in
  match view with
  | None => []
  | Some view_file_path =>
      if decide (tagName targetEl ≠ "A") then []
      else if hasClass targetEl "internal-link"
           then [TriggerHoverLink (href targetEl) view_file_path]
           else []
  end.

(** [None] is an error raised on the way: by [getNormalizedPath], or the
    TypeError of reading [view.app] without a view. *)
Definition onClick (e : MouseEvent) : option (list LinkEffect) :=
  if bool_decide (ev_type e = "auxclick") && bool_decide (ev_button e = 2%Z)
  then Some []
  else
    let targetEl := ev_target e in
    let closestAnchor :=
      if decide (tagName targetEl = "A") then Some targetEl
      else ev_closest_a e in
    match closestAnchor with
    | None => Some []
    | Some closestAnchor =>
        if hasClass closestAnchor "file-link" then
          normalizedPath_root ← getNormalizedPath_root (href closestAnchor);
          match href closestAnchor with
          | Some _ =>
              view_file_path ← view;
              match getFirstLinkpathDest normalizedPath_root
                      view_file_path with
              | Some path => Some [PreventDefault; OpenWithDefaultApp path]
              | None => Some [PreventDefault]
              end
          | None => Some [PreventDefault]
          end
        else if hasClass closestAnchor "internal-link" then
          let inNewLeaf :=
            bool_decide (ev_button e = 1%Z) || ev_ctrlKey e || ev_metaKey e in
          Some [PreventDefault;
                OpenLinkText (href closestAnchor) filePath inNewLeaf]
        else Some []
    end.
End links.

(** A link effect that opens something. *)
Definition opens (x : LinkEffect) : bool :=
  match x with
  | OpenWithDefaultApp _ | OpenLinkText _ _ _ => true
  | _ => false
  end.

(** ** The header row (Table.tsx, lines 322-379) *)

Record Header := {
  header_id : string;
  header_column_key : string;
  isPlaceholder : bool;
}.

(** A cell of the rendered header row, with its React key: a [TableHeader]
    with the index it is given, or the plain cell of the add-column
    header. *)
Inductive HeaderCell :=
  | TableHeaderCell (key : string) (header : Header) (headerIndex : nat)
  | PlainHeaderCell (key : string) (header : Header).

Definition cell_header (c : HeaderCell) : Header :=
  match c with
  | TableHeaderCell _ h _ => h
  | PlainHeaderCell _ h => h
  end.

Definition is_TableHeader (c : HeaderCell) : bool :=
  match c with
  | TableHeaderCell _ _ _ => true
  | PlainHeaderCell _ _ => false
  end.

Section header_row.
(** [MetadataColumns.ADD_COLUMN], from [helpers/Constants]. *)
Variable ADD_COLUMN : string.

(** [`${header.id}-${headerIndex}`] *)
Definition header_key (h : Header) (headerIndex : nat) : string :=
  header_id h +:+ "-" +:+ pretty headerIndex.

(** The cells of one header group: the headers that are not the add-column
    header, as [TableHeader]s, then the add-column headers. *)
Definition render_headers (headers : list Header) : list HeaderCell :=
  imap (fun headerIndex header =>
          TableHeaderCell (header_key header headerIndex) header headerIndex)
       (filter (fun o => header_column_key o ≠ ADD_COLUMN) headers)
  ++
  imap (fun headerIndex header =>
          PlainHeaderCell (header_key header headerIndex) header)
       (filter (fun o => header_column_key o = ADD_COLUMN) headers).
End header_row.

(** ** More data for the examples *)

Definition note_link : Element :=
  {| tagName := "A"; classes := ["internal-link"]; href := Some "Note" |}.

(** An element inside [note_link]. *)
Definition link_text : Element :=
  {| tagName := "SPAN"; classes := []; href := None |}.

Definition click_on (el : Element) (closest : option Element) : MouseEvent :=
  {| ev_type := "click"; ev_button := 0; ev_ctrlKey := false;
     ev_metaKey := false; ev_target := el; ev_closest_a := closest |}.

(** * Properties *)

(** ** Arrays: [indexOf] and [splice] *)

Example indexOf_found : indexOf "b" ["a"; "b"; "c"; "b"] = 1%Z.
Proof. reflexivity. Qed.

Example indexOf_not_found : indexOf "z" ["a"; "b"; "c"] = (-1)%Z.
Proof. reflexivity. Qed.

Example splice_removes_one :
  splice 1 1 [] ["a"; "b"; "c"] = (["b"], ["a"; "c"]).
Proof. reflexivity. Qed.

Example splice_inserts :
  splice 2 0 ["x"] ["a"; "b"; "c"] = ([], ["a"; "b"; "x"; "c"]).
Proof. reflexivity. Qed.

(** A start of [-1] is the last position. *)
Example splice_from_the_end :
  splice (-1) 1 [] ["a"; "b"; "c"] = (["c"], ["a"; "b"]).
Proof. reflexivity. Qed.

Example splice_past_the_end :
  splice 9 0 ["x"] ["a"; "b"] = ([], ["a"; "b"; "x"]).
Proof. reflexivity. Qed.

Example reordered_to_the_left :
  reordered "c" "a" (ids ["a"; "b"; "c"]) = ids ["c"; "a"; "b"].
Proof. reflexivity. Qed.

Example reordered_to_the_right :
  reordered "a" "c" (ids ["a"; "b"; "c"]) = ids ["b"; "c"; "a"].
Proof. reflexivity. Qed.

(** On an empty array nothing is removed and [undefined] is inserted. *)
Example reordered_empty : reordered "a" "c" [] = [None].
Proof. reflexivity. Qed.

Section js_array_facts.
Context {A : Type} `{EqDecision A}.
Implicit Types (x y : A) (l p s : list A).

Lemma indexOf_from_first i x p s :
  x ∉ p -> indexOf_from i x (p ++ x :: s) = (i + Z.of_nat (length p))%Z.
Proof.
  revert i. induction p as [|y p IH]; intros i Hp; simpl.
  - rewrite decide_True by done. lia.
  - apply not_elem_of_cons in Hp as [Hxy Hp].
    rewrite decide_False by done. rewrite IH by done. lia.
Qed.

Lemma indexOf_first x p s :
  x ∉ p -> indexOf x (p ++ x :: s) = Z.of_nat (length p).
Proof. intros Hp. unfold indexOf. by rewrite indexOf_from_first. Qed.

Lemma indexOf_from_absent i x l : x ∉ l -> indexOf_from i x l = (-1)%Z.
Proof.
  revert i. induction l as [|y l IH]; intros i Hl; simpl; [done|].
  apply not_elem_of_cons in Hl as [Hxy Hl].
  rewrite decide_False by done. by apply IH.
Qed.

Lemma actualStart_in_range (n : nat) l :
  n ≤ length l -> actualStart (Z.of_nat n) l = n.
Proof.
  intros Hn. unfold actualStart.
  destruct (Z.ltb_spec (Z.of_nat n) 0); lia.
Qed.

Lemma splice_remove_at x p s :
  splice (Z.of_nat (length p)) 1 [] (p ++ x :: s) = ([x], p ++ s).
Proof.
  unfold splice. rewrite actualStart_in_range by (rewrite length_app; lia).
  rewrite length_app. simpl.
  replace (Z.to_nat _) with 1 by lia.
  rewrite drop_app_length, take_app_length. simpl. rewrite take_0.
  f_equal. f_equal.
  rewrite drop_app_ge by lia.
  replace (length p + 1 - length p) with 1 by lia. done.
Qed.

Lemma splice_insert_at (n : nat) y l :
  n ≤ length l ->
  splice (Z.of_nat n) 0 [y] l = ([], take n l ++ y :: drop n l).
Proof.
  intros Hn. unfold splice. rewrite actualStart_in_range by done.
  replace (Z.to_nat _) with 0 by lia.
  rewrite take_0. by rewrite Nat.add_0_r.
Qed.
End js_array_facts.

Lemma indexOf_from_fmap {A B} `{EqDecision A, EqDecision B} (f : A -> B)
    `{!Inj (=) (=) f} i x (l : list A) :
  indexOf_from i (f x) (f <$> l) = indexOf_from i x l.
Proof.
  revert i. induction l as [|y l IH]; intros i; simpl; [done|].
  destruct (decide (y = x)) as [->|Hne].
  - by rewrite decide_True.
  - rewrite decide_False; [apply IH|]. intros Heq. by apply Hne, (inj f).
Qed.

Lemma indexOf_ids (x : string) (l : list string) :
  indexOf (Some x) (ids l) = indexOf x l.
Proof. unfold indexOf, ids. apply (indexOf_from_fmap Some). Qed.

Lemma remove_first_split (d : string) (p s : list string) :
  d ∉ p -> remove_first d (p ++ d :: s) = p ++ s.
Proof.
  induction p as [|y p IH]; intros Hp; simpl.
  - by rewrite decide_True.
  - apply not_elem_of_cons in Hp as [Hxy Hp].
    rewrite decide_False by done. by rewrite IH.
Qed.

Lemma remove_first_perm (d : string) (l : list string) :
  d ∈ l -> d :: remove_first d l ≡ₚ l.
Proof.
  intros (p & s & -> & Hp)%list_elem_of_split_l.
  rewrite remove_first_split by done. by rewrite Permutation_middle.
Qed.

(** On an array of ids that has the dragged id and the target id,
    [reorderColumn] leaves the sequence [move_to_target_index] describes. *)
Lemma reordered_ids (d t : string) (l : list string) :
  d ∈ l -> t ∈ l -> reordered d t (ids l) = ids (move_to_target_index d t l).
Proof.
  intros Hd Ht.
  destruct (list_elem_of_split_l _ _ Ht) as (p' & s' & El' & Hp').
  assert (indexOf t l = Z.of_nat (length p')) as Hti
    by (rewrite El'; by apply indexOf_first).
  assert (length l = length p' + S (length s')) as Hlen
    by (rewrite El', length_app; done).
  clear El' Hp' Ht.
  destruct (list_elem_of_split_l _ _ Hd) as (p & s & -> & Hp).
  unfold reordered, move_to_target_index.
  rewrite !indexOf_ids, Hti, Nat2Z.id, remove_first_split by done.
  rewrite indexOf_first by done.
  unfold ids. rewrite fmap_app, fmap_cons, <- (length_fmap Some p).
  rewrite splice_remove_at. cbv beta iota zeta. cbn [first_elem].
  rewrite <- fmap_app, splice_insert_at.
  - cbn [snd]. by rewrite <- fmap_take, <- fmap_drop, fmap_app.
  - rewrite length_fmap. rewrite !length_app in *. simpl in *. lia.
Qed.

(** Where the dragged id ends up, by where it stood. *)
Lemma move_same (d : string) (l : list string) :
  d ∈ l -> move_to_target_index d d l = l.
Proof.
  intros (p & s & -> & Hp)%list_elem_of_split_l.
  unfold move_to_target_index.
  rewrite indexOf_first, Nat2Z.id, remove_first_split by done.
  by rewrite take_app_length, drop_app_length.
Qed.

Lemma move_from_after (d t : string) (p m s : list string) :
  t ∉ p -> d ∉ p ++ t :: m ->
  move_to_target_index d t (p ++ t :: m ++ d :: s) = p ++ d :: t :: m ++ s.
Proof.
  intros Ht Hd. unfold move_to_target_index.
  rewrite indexOf_first, Nat2Z.id by done.
  replace (p ++ t :: m ++ d :: s) with ((p ++ t :: m) ++ d :: s)
    by (by rewrite <- app_assoc).
  rewrite remove_first_split by done.
  rewrite <- app_assoc. simpl.
  by rewrite take_app_length, drop_app_length.
Qed.

Lemma move_from_before (d t : string) (p m s : list string) :
  d ∉ p -> t ∉ p ++ d :: m ->
  move_to_target_index d t (p ++ d :: m ++ t :: s) = p ++ m ++ t :: d :: s.
Proof.
  intros Hd Ht. unfold move_to_target_index.
  rewrite remove_first_split by done.
  replace (p ++ d :: m ++ t :: s) with ((p ++ d :: m) ++ t :: s)
    by (by rewrite <- app_assoc).
  rewrite indexOf_first, Nat2Z.id by done.
  replace (p ++ m ++ t :: s) with ((p ++ m ++ [t]) ++ s)
    by (by rewrite <- !app_assoc).
  rewrite take_app_length', drop_app_length'.
  - by rewrite <- !app_assoc.
  - rewrite !length_app. simpl. lia.
  - rewrite !length_app. simpl. lia.
Qed.

Lemma move_perm (d t : string) (l : list string) :
  d ∈ l -> move_to_target_index d t l ≡ₚ l.
Proof.
  intros Hd. unfold move_to_target_index.
  rewrite <- Permutation_middle, take_drop. by apply remove_first_perm.
Qed.

(** ** reorderColumn on the store *)

Lemma reorderColumn_run (d t : string) (r : ref) (a : list cell) (h : store) :
  h !! r = Some a ->
  reorderColumn d t r h =
    Some (fresh (dom h),
          <[fresh (dom h) := reordered d t a]> (<[r := reordered d t a]> h)).
Proof.
  intros Hr. unfold reorderColumn, mbind, M_bind, arr_indexOf, arr_splice, arr_copy.
  repeat (rewrite Hr; cbv beta iota). unfold reordered.
  destruct (splice (indexOf (Some d) a) 1 [] a) as [removed l1].
  cbv beta iota. rewrite lookup_insert_eq.
  destruct (splice (indexOf (Some t) a) 0 [first_elem removed] l1) as [x l2].
  cbv beta iota. rewrite lookup_insert_eq, insert_insert_eq. cbn [snd].
  assert (dom (<[r := l2]> h) = dom h) as ->; [|done].
  rewrite dom_insert_L. apply elem_of_dom_2 in Hr.
  apply subseteq_union_1_L. by apply singleton_subseteq_l.
Qed.

Lemma fresh_ref_unused (h : store) : h !! fresh (dom h) = None.
Proof. apply not_elem_of_dom, is_fresh. Qed.


(** C1, as the claim states it, fails: dragging "a" onto "c" in the order
    a, b, c gives b, c, a.  The dragged id was taken out and put back at the
    index "c" had, which is now the end, so it stands after "c" and not
    immediately before it, where the specification's wording puts it
    (b, a, c). *)
Lemma reorderColumn_drag_right_lands_after_target :
  "a" ∈ ["a"; "b"; "c"] ∧ "c" ∈ ["a"; "b"; "c"] ∧
  (∃ r' h', reorderColumn "a" "c" 7 abc_store = Some (r', h') ∧
            h' !! r' = Some (ids ["b"; "c"; "a"])) ∧
  ¬ immediately_before "a" "c" ["b"; "c"; "a"] ∧
  reorder_spec "a" "c" ["a"; "b"; "c"] = ["b"; "a"; "c"].
Proof.
  split; [set_solver|]. split; [set_solver|]. split; [|split].
  - eexists _, _. split; [by vm_compute|]. by vm_compute.
  - intros (pre & post & E).
    destruct pre as [|x1 [|x2 [|x3 pre]]]; simplify_eq/=.
    destruct pre; simplify_eq/=.
  - reflexivity.
Qed.

(** C1, amended: on an order that has both ids, reorderColumn takes the
    dragged id out of its place and puts it back at the index the target id
    had in the order as passed, and returns the full resulting order.  So the
    dragged id lands immediately before the target when it stood after it,
    immediately after the target when it stood before it, and the order is
    unchanged when the two ids are the same. *)
Theorem reorderColumn_moves_to_target_index
    (d t : string) (l : list string) (r : ref) (h : store) :
  h !! r = Some (ids l) -> d ∈ l -> t ∈ l ->
  ∃ r' h',
    reorderColumn d t r h = Some (r', h') ∧
    h' !! r' = Some (ids (move_to_target_index d t l)) ∧
    (d = t -> move_to_target_index d t l = l) ∧
    (∀ p m s, l = p ++ t :: m ++ d :: s -> t ∉ p -> d ∉ p ++ t :: m ->
              move_to_target_index d t l = p ++ d :: t :: m ++ s) ∧
    (∀ p m s, l = p ++ d :: m ++ t :: s -> d ∉ p -> t ∉ p ++ d :: m ->
              move_to_target_index d t l = p ++ m ++ t :: d :: s).
Proof.
  intros Hr Hd Ht. eexists _, _. split; [by apply reorderColumn_run|].
  split; [by rewrite lookup_insert_eq, reordered_ids|].
  split; [intros <-; by apply move_same|].
  split; intros p m s ->; [apply move_from_after|apply move_from_before].
Qed.

Lemma reorderColumn_moves_to_target_index_witness :
  ∃ r' h',
    reorderColumn "a" "c" 7 abc_store = Some (r', h') ∧
    h' !! r' = Some (ids (move_to_target_index "a" "c" ["a"; "b"; "c"])) ∧
    ("a" = "c" -> move_to_target_index "a" "c" ["a"; "b"; "c"] = ["a"; "b"; "c"]) ∧
    (∀ p m s, ["a"; "b"; "c"] = p ++ "c" :: m ++ "a" :: s ->
              "c" ∉ p -> "a" ∉ p ++ "c" :: m ->
              move_to_target_index "a" "c" ["a"; "b"; "c"]
              = p ++ "a" :: "c" :: m ++ s) ∧
    (∀ p m s, ["a"; "b"; "c"] = p ++ "a" :: m ++ "c" :: s ->
              "a" ∉ p -> "c" ∉ p ++ "a" :: m ->
              move_to_target_index "a" "c" ["a"; "b"; "c"]
              = p ++ m ++ "c" :: "a" :: s).
Proof.
  apply (reorderColumn_moves_to_target_index "a" "c" ["a"; "b"; "c"] 7 abc_store).
  - reflexivity.
  - apply list_elem_of_here.
  - do 2 apply list_elem_of_further. apply list_elem_of_here.
Defined.

(** C6: on an order that has both ids, the order reorderColumn returns (and
    the one it leaves in the array it was given) is a permutation of the
    order passed: the same ids, each as often as before. *)
Theorem reorderColumn_permutation
    (d t : string) (l : list string) (r : ref) (h : store) :
  h !! r = Some (ids l) -> d ∈ l -> t ∈ l ->
  ∃ r' h' l',
    reorderColumn d t r h = Some (r', h') ∧
    h' !! r' = Some (ids l') ∧ h' !! r = Some (ids l') ∧ l' ≡ₚ l.
Proof.
  intros Hr Hd Ht. exists (fresh (dom h)). eexists _, (move_to_target_index d t l).
  split; [by apply reorderColumn_run|].
  rewrite <- reordered_ids by done.
  split; [by rewrite lookup_insert_eq|].
  split; [|by apply move_perm].
  rewrite lookup_insert_ne, lookup_insert_eq; [done|].
  intros E. pose proof (fresh_ref_unused h) as Hf. rewrite E in Hf. congruence.
Qed.

Lemma reorderColumn_permutation_witness :
  ∃ r' h' l',
    reorderColumn "c" "a" 7 abc_store = Some (r', h') ∧
    h' !! r' = Some (ids l') ∧ h' !! 7 = Some (ids l') ∧
    l' ≡ₚ ["a"; "b"; "c"].
Proof.
  apply (reorderColumn_permutation "c" "a" ["a"; "b"; "c"] 7 abc_store).
  - reflexivity.
  - do 2 apply list_elem_of_further. apply list_elem_of_here.
  - apply list_elem_of_here.
Defined.

(** C10: reorderColumn changes the array it is given in place.  After the
    call the caller's array no longer holds the order passed but the
    reordered one (the dragged id taken out and put back at the index the
    target id had), the returned reference is a new array with the same
    elements one by one, and no other array of the store has changed. *)
Theorem reorderColumn_in_place
    (d t : string) (l : list string) (r : ref) (h : store) :
  h !! r = Some (ids l) -> d ∈ l -> t ∈ l ->
  ∃ r' h',
    reorderColumn d t r h = Some (r', h') ∧
    r' ≠ r ∧ h !! r' = None ∧
    h' !! r = Some (ids (move_to_target_index d t l)) ∧
    h' !! r' = Some (ids (move_to_target_index d t l)) ∧
    (∀ q, q ≠ r -> q ≠ r' -> h' !! q = h !! q).
Proof.
  intros Hr Hd Ht. pose proof (fresh_ref_unused h) as Hf.
  assert (fresh (dom h) ≠ r) as Hne by (intros E; rewrite E in Hf; congruence).
  eexists _, _. split; [by apply reorderColumn_run|].
  split; [done|]. split; [done|].
  rewrite lookup_insert_eq, lookup_insert_ne, lookup_insert_eq by done.
  rewrite reordered_ids by done.
  split; [done|]. split; [done|].
  intros q Hq Hq'. by rewrite !lookup_insert_ne.
Qed.

Lemma reorderColumn_in_place_witness :
  ∃ r' h',
    reorderColumn "a" "c" 7 abc_store = Some (r', h') ∧
    r' ≠ 7 ∧ abc_store !! r' = None ∧
    h' !! 7 = Some (ids ["b"; "c"; "a"]) ∧
    h' !! r' = Some (ids ["b"; "c"; "a"]) ∧
    (∀ q, q ≠ 7 -> q ≠ r' -> h' !! q = abc_store !! q).
Proof.
  apply (reorderColumn_in_place "a" "c" ["a"; "b"; "c"] 7 abc_store).
  - reflexivity.
  - apply list_elem_of_here.
  - do 2 apply list_elem_of_further. apply list_elem_of_here.
Defined.

(** ** The delayed commit of a column's width *)

Lemma armed_one_timer st pc : armed st pc -> one_timer st.
Proof. intros (h & ? & ?). right. eauto. Qed.

Lemma initialState_one_timer t0 sizing : one_timer (initialState t0 sizing).
Proof. by left. Qed.

Lemma clear_held_timer st :
  one_timer st ->
  timers (match persistSizingTimeout st with
          | Some h => clearTimeout h st
          | None => st
          end) = [].
Proof.
  intros [Hnone | (h & pc & Ht & Hp)].
  - destruct (persistSizingTimeout st); simpl; by rewrite ?Hnone.
  - rewrite Hp. simpl. rewrite Ht.
    rewrite filter_cons_False; [done|]. simpl. by intros ?.
Qed.

Lemma clear_keeps_rest st :
  let st' := match persistSizingTimeout st with
             | Some h => clearTimeout h st
             | None => st
             end in
  now st' = now st ∧ alterColumnSize_calls st' = alterColumnSize_calls st.
Proof. by destruct (persistSizingTimeout st). Qed.

(** One event, handled: whatever was pending is cancelled, and the commit of
    this event's column and width is armed, 1500 ms from now. *)
Lemma onColumnSizingChange_arms (c : string) (s : Z) (e : SizingEvent) st :
  resizes c s e -> one_timer st ->
  ∃ st', onColumnSizingChange (info e) (updater e) st = Some st' ∧
         now st' = now st ∧
         alterColumnSize_calls st' = alterColumnSize_calls st ∧
         armed st' {| due := now st + 1500; commit_column := c;
                      commit_width := (s + deltaOffset (info e))%Z |}.
Proof.
  intros [_ Hfind] Hone. unfold onColumnSizingChange. rewrite Hfind. simpl.
  pose proof (clear_held_timer st Hone) as Hclear.
  destruct (clear_keeps_rest st) as [Hnow Hcalls].
  eexists. split; [done|]. simpl. rewrite Hclear, Hnow, Hcalls.
  split; [done|]. split; [done|]. eexists. by split.
Qed.

(** The handler keeps [one_timer], whatever the event. *)
Lemma onColumnSizingChange_one_timer i u st st' :
  one_timer st -> onColumnSizingChange i u st = Some st' -> one_timer st'.
Proof.
  intros Hone. unfold onColumnSizingChange.
  destruct (List.find _ _) as [cu|]; simpl; [|done].
  intros [= <-]. right. simpl. rewrite (clear_held_timer st Hone).
  eexists _, _. by split.
Qed.

Lemma advance_one_timer dt st : one_timer st -> one_timer (advance dt st).
Proof.
  intros [Hnone | (h & pc & Ht & Hp)]; unfold one_timer; simpl.
  - left. by rewrite Hnone.
  - rewrite Ht, (filter_singleton _ (h, pc) []). destruct (decide _); [|by left].
    right. by exists h, pc.
Qed.

Lemma advance_idle dt st :
  timers st = [] ->
  alterColumnSize_calls (advance dt st) = alterColumnSize_calls st.
Proof. intros Ht. simpl. rewrite Ht. simpl. by rewrite app_nil_r. Qed.

(** Before it is due, an armed commit stays armed and nothing is called. *)
Lemma advance_early dt st pc :
  armed st pc -> now st + dt < due pc ->
  armed (advance dt st) pc ∧
  alterColumnSize_calls (advance dt st) = alterColumnSize_calls st.
Proof.
  intros (h & Ht & Hp) Hlt. split.
  - exists h. simpl. by rewrite Ht, (filter_singleton_True _ (h, pc) []).
  - simpl. rewrite Ht, (filter_singleton_False _ (h, pc) []) by (simpl; lia).
    simpl. by rewrite app_nil_r.
Qed.

(** Once it is due, the armed commit is called, once, and is gone. *)
Lemma advance_due dt st pc :
  armed st pc -> due pc ≤ now st + dt ->
  timers (advance dt st) = [] ∧
  alterColumnSize_calls (advance dt st) =
    alterColumnSize_calls st ++
    [{| call_time := due pc; call_column := commit_column pc;
        call_width := commit_width pc |}].
Proof.
  intros (h & Ht & Hp) Hle. split; simpl; rewrite Ht.
  - by rewrite (filter_singleton_False _ (h, pc) []) by (simpl; lia).
  - by rewrite (filter_singleton_True _ (h, pc) []).
Qed.

Lemma resizes_unique c s c' s' e :
  resizes c s e -> resizes c' s' e -> c = c' ∧ s = s'.
Proof. intros [_ H] [_ H']. rewrite H in H'. by simplify_eq. Qed.

(** Events that each come less than 1500 ms after the one before: no commit
    is called on the way, and the one left armed is that of the last
    event. *)
Lemma run_within_window evs : ∀ st pc,
  armed st pc -> due pc = now st + 1500 ->
  Forall (fun e => after e < 1500) evs ->
  Forall (fun e => ∃ c s, resizes c s e) evs ->
  ∃ st' pc',
    run evs st = Some st' ∧
    alterColumnSize_calls st' = alterColumnSize_calls st ∧
    armed st' pc' ∧ due pc' = now st' + 1500 ∧
    match last evs with
    | Some e => commit_of e pc'
    | None => pc' = pc
    end.
Proof.
  induction evs as [|e evs IH]; intros st pc Harmed Hdue Hgap Hev.
  - exists st, pc. by repeat split.
  - apply Forall_cons in Hgap as [Hgap1 Hgap]. cbv beta in Hgap1.
    apply Forall_cons in Hev as [(c & s & Hres) Hev].
    assert (now st + after e < due pc) as Hearly by lia.
    destruct (advance_early (after e) st pc Harmed Hearly) as [Harmed1 Hcalls1].
    destruct (onColumnSizingChange_arms c s e (advance (after e) st) Hres
                (armed_one_timer _ _ Harmed1))
      as (st2 & Hstep & Hnow2 & Hcalls2 & Harmed2).
    assert (now (advance (after e) st) + 1500 = now st2 + 1500) as Hdue2 by lia.
    destruct (IH st2 _ Harmed2 Hdue2 Hgap Hev)
      as (st' & pc' & Hrun & Hcalls & Harmed' & Hdue' & Hlast).
    exists st', pc'. cbn [run]. rewrite Hstep. simpl.
    split; [done|]. split; [congruence|]. split; [done|]. split; [done|].
    destruct evs as [|e' evs'].
    + simpl in *. subst pc'. intros c' s' Hres'.
      by destruct (resizes_unique _ _ _ _ _ Hres Hres') as [<- <-].
    + rewrite last_cons_cons.
      destruct (last (e' :: evs')) eqn:E; [done|]. by apply last_None in E.
Qed.

(** C3: N >= 1 sizing events on a column, each less than 1500 ms after the
    one before, then silence.  Every event cancels the pending timer and arms
    a new one, so no commit is called while the events arrive or in the
    1500 ms after the last one, and from then on exactly one call of
    alterColumnSize has been made: for that column, with the start width plus
    the last offset, at 1500 ms after the last event. *)
Theorem resize_commits_once
    (c : string) (t0 : nat) (sizing : gmap string Z)
    (e1 : SizingEvent) (evs : list SizingEvent)
    (elast : SizingEvent) (s : Z) :
  Forall (fun e => ∃ s', resizes c s' e) (e1 :: evs) ->
  Forall (fun e => after e < 1500) evs ->
  last (e1 :: evs) = Some elast -> resizes c s elast ->
  ∃ st,
    run (e1 :: evs) (initialState t0 sizing) = Some st ∧
    alterColumnSize_calls st = [] ∧
    (∀ T, T < 1500 -> alterColumnSize_calls (advance T st) = []) ∧
    (∀ T, 1500 ≤ T ->
          alterColumnSize_calls (advance T st) =
            [{| call_time := now st + 1500; call_column := c;
                call_width := (s + deltaOffset (info elast))%Z |}] ∧
          timers (advance T st) = []).
Proof.
  intros Hev Hgap Hlast Hres.
  apply Forall_cons in Hev as [(s1 & Hres1) Hev].
  set (st0 := advance (after e1) (initialState t0 sizing)).
  assert (one_timer st0) as Hone
    by apply advance_one_timer, initialState_one_timer.
  destruct (onColumnSizingChange_arms c s1 e1 st0 Hres1 Hone)
    as (st1 & Hstep & Hnow1 & Hcalls1 & Harmed1).
  assert (now st0 + 1500 = now st1 + 1500) as Hdue1 by lia.
  assert (Forall (fun e => ∃ c s, resizes c s e) evs) as Hev'.
  { eapply Forall_impl; [exact Hev|]. intros e (s' & ?). eauto. }
  destruct (run_within_window evs st1 _ Harmed1 Hdue1 Hgap Hev')
    as (st & pc & Hrun & Hcalls & Harmed & Hdue & Hpc).
  assert (commit_of elast pc) as Hcommit.
  { destruct evs as [|e' evs'].
    - simpl in Hlast, Hpc. simplify_eq. intros c' s' Hres'.
      by destruct (resizes_unique _ _ _ _ _ Hres1 Hres') as [<- <-].
    - rewrite last_cons_cons in Hlast. by rewrite Hlast in Hpc. }
  destruct (Hcommit c s Hres) as [Hcol Hw].
  assert (alterColumnSize_calls st = []) as Hnil.
  { rewrite Hcalls, Hcalls1. by apply advance_idle. }
  assert (run (e1 :: evs) (initialState t0 sizing) = Some st) as Hall.
  { cbn [run]. fold st0. by rewrite Hstep. }
  exists st. split; [done|]. split; [done|]. split.
  - intros T HT.
    assert (now st + T < due pc) as Hearly by lia.
    destruct (advance_early T st pc Harmed Hearly) as [_ ->]. done.
  - intros T HT.
    assert (due pc ≤ now st + T) as Hlate by lia.
    destruct (advance_due T st pc Harmed Hlate) as [-> ->].
    by rewrite Hnil, Hdue, Hcol, Hw.
Qed.

Lemma resize_commits_once_witness :
  ∃ st,
    run (drag "title" 100 0 5 :: [drag "title" 100 16 12; drag "title" 100 1499 40])
        (initialState 0 ∅) = Some st ∧
    alterColumnSize_calls st = [] ∧
    (∀ T, T < 1500 -> alterColumnSize_calls (advance T st) = []) ∧
    (∀ T, 1500 ≤ T ->
          alterColumnSize_calls (advance T st) =
            [{| call_time := now st + 1500; call_column := "title";
                call_width := (100 + deltaOffset (info (drag "title" 100 1499 40)))%Z |}] ∧
          timers (advance T st) = []).
Proof.
  apply (resize_commits_once "title" 0 ∅ (drag "title" 100 0 5)
           [drag "title" 100 16 12; drag "title" 100 1499 40]
           (drag "title" 100 1499 40) 100).
  - repeat constructor; exists 100%Z; split; reflexivity.
  - repeat constructor; simpl; lia.
  - reflexivity.
  - split; reflexivity.
Defined.

Lemma run_one_timer evs : ∀ st st',
  one_timer st -> run evs st = Some st' -> one_timer st'.
Proof.
  induction evs as [|e evs IH]; intros st st' Hone Hrun; simpl in Hrun.
  - by simplify_eq.
  - destruct (onColumnSizingChange _ _ _) as [st1|] eqn:Hstep; [|done].
    simpl in Hrun. eapply IH; [|exact Hrun].
    eapply onColumnSizingChange_one_timer; [|exact Hstep].
    by apply advance_one_timer.
Qed.

Lemma one_timer_length st : one_timer st -> length (timers st) ≤ 1.
Proof. intros [-> | (h & pc & -> & _)]; simpl; lia. Qed.

(** C9: the table has one pending width commit at most, not one per column.
    In every state the component reaches at most one timer is pending, also
    as time passes.  And when, from such a state, a sizing event for column
    [a] is followed less than 1500 ms later by one for another column [b],
    the commit armed for [a] is cancelled: the only call of alterColumnSize
    made from then on, however long one waits, is the one for [b]. *)
Theorem pending_commit_is_table_wide
    (evs : list SizingEvent) (t0 : nat) (sizing : gmap string Z)
    (st : TableState) (a b : string) (sa sb : Z) (eA eB : SizingEvent) :
  run evs (initialState t0 sizing) = Some st ->
  a ≠ b -> resizes a sa eA -> resizes b sb eB -> after eB < 1500 ->
  length (timers st) ≤ 1 ∧
  (∀ T, length (timers (advance T st)) ≤ 1) ∧
  ∃ stA stB,
    onColumnSizingChange (info eA) (updater eA) (advance (after eA) st) = Some stA ∧
    armed stA {| due := now stA + 1500; commit_column := a;
                 commit_width := (sa + deltaOffset (info eA))%Z |} ∧
    run [eA; eB] st = Some stB ∧
    length (timers stB) ≤ 1 ∧
    ∀ T, alterColumnSize_calls (advance T stB) =
         alterColumnSize_calls stA ++
         (if decide (1500 ≤ T)
          then [{| call_time := now stB + 1500; call_column := b;
                   call_width := (sb + deltaOffset (info eB))%Z |}]
          else []).
Proof.
  intros Hrun Hab HA HB Hgap.
  assert (one_timer st) as Hone
    by (eapply run_one_timer; [apply initialState_one_timer|exact Hrun]).
  split; [by apply one_timer_length|].
  split; [intros T; by apply one_timer_length, advance_one_timer|].
  destruct (onColumnSizingChange_arms a sa eA _ HA (advance_one_timer (after eA) _ Hone))
    as (stA & HstepA & HnowA & HcallsA & HarmedA).
  rewrite <- HnowA in HarmedA.
  assert (now stA + after eB < now stA + 1500) as Hearly by lia.
  destruct (advance_early (after eB) stA _ HarmedA Hearly) as [HarmedA' HcallsA'].
  destruct (onColumnSizingChange_arms b sb eB _ HB (armed_one_timer _ _ HarmedA'))
    as (stB & HstepB & HnowB & HcallsB & HarmedB).
  rewrite <- HnowB in HarmedB.
  exists stA, stB. split; [done|]. split; [done|].
  split; [cbn [run]; rewrite HstepA; simpl; by rewrite HstepB|].
  split; [by eapply one_timer_length, armed_one_timer|].
  intros T. destruct (decide (1500 ≤ T)) as [Hlate|Hsoon].
  - assert (now stB + 1500 ≤ now stB + T) as Hle by lia.
    destruct (advance_due T stB _ HarmedB Hle) as [_ ->].
    by rewrite HcallsB, HcallsA'.
  - assert (now stB + T < now stB + 1500) as Hlt by lia.
    destruct (advance_early T stB _ HarmedB Hlt) as [_ ->].
    by rewrite HcallsB, HcallsA', app_nil_r.
Qed.

Lemma pending_commit_is_table_wide_witness :
  length (timers (initialState 0 ∅)) ≤ 1 ∧
  (∀ T, length (timers (advance T (initialState 0 ∅))) ≤ 1) ∧
  ∃ stA stB,
    onColumnSizingChange (info (drag "title" 100 0 5)) (updater (drag "title" 100 0 5))
      (advance (after (drag "title" 100 0 5)) (initialState 0 ∅)) = Some stA ∧
    armed stA {| due := now stA + 1500; commit_column := "title";
                 commit_width := (100 + deltaOffset (info (drag "title" 100 0 5)))%Z |} ∧
    run [drag "title" 100 0 5; drag "tags" 80 700 (-9)] (initialState 0 ∅) = Some stB ∧
    length (timers stB) ≤ 1 ∧
    ∀ T, alterColumnSize_calls (advance T stB) =
         alterColumnSize_calls stA ++
         (if decide (1500 ≤ T)
          then [{| call_time := now stB + 1500; call_column := "tags";
                   call_width := (80 + deltaOffset (info (drag "tags" 80 700 (-9))))%Z |}]
          else []).
Proof.
  apply (pending_commit_is_table_wide [] 0 ∅ (initialState 0 ∅) "title" "tags").
  - reflexivity.
  - discriminate.
  - split; reflexivity.
  - split; reflexivity.
  - simpl; lia.
Defined.

(** ** The committed width *)

Lemma clamp_within (lo hi w : Z) : (lo ≤ hi)%Z -> (lo ≤ clamp lo hi w ≤ hi)%Z.
Proof. unfold clamp. lia. Qed.

Lemma clamp_id (lo hi w : Z) : (lo ≤ w ≤ hi)%Z -> clamp lo hi w = w.
Proof. unfold clamp. lia. Qed.

(** C2: whatever width is proposed for a column (the start width plus the
    offset of the drag), the width alterColumnSize stores for it lies within
    the column's limits, and a proposed width within the limits is stored as
    it is. *)
Theorem commitWidth_within_limits
    (MIN MAX : Z) (columns : list TableColumn) (c0 : TableColumn)
    (start delta : Z) :
  c0 ∈ columns ->
  (minWidth MIN MAX c0 ≤ maxWidth MIN MAX c0)%Z ->
  ∃ c, c ∈ alterColumnSize MIN MAX (col_id c0) (start + delta) columns ∧
       col_id c = col_id c0 ∧
       minWidth MIN MAX c = minWidth MIN MAX c0 ∧
       maxWidth MIN MAX c = maxWidth MIN MAX c0 ∧
       (minWidth MIN MAX c0 ≤ col_width c ≤ maxWidth MIN MAX c0)%Z ∧
       ((minWidth MIN MAX c0 ≤ start + delta ≤ maxWidth MIN MAX c0)%Z ->
        col_width c = (start + delta)%Z).
Proof.
  intros Hin Hlim. unfold alterColumnSize.
  eexists. split; [by apply list_elem_of_fmap_2|].
  rewrite decide_True by done. simpl.
  split; [done|]. split; [done|]. split; [done|].
  split; [by apply clamp_within|apply clamp_id].
Qed.

Lemma commitWidth_within_limits_witness :
  ∃ c, c ∈ alterColumnSize 30 350 (col_id title_column) (100 + 900)
             [title_column; tags_column] ∧
       col_id c = col_id title_column ∧
       minWidth 30 350 c = minWidth 30 350 title_column ∧
       maxWidth 30 350 c = maxWidth 30 350 title_column ∧
       (minWidth 30 350 title_column ≤ col_width c ≤ maxWidth 30 350 title_column)%Z ∧
       ((minWidth 30 350 title_column ≤ 100 + 900 ≤ maxWidth 30 350 title_column)%Z ->
        col_width c = (100 + 900)%Z).
Proof.
  apply (commitWidth_within_limits 30 350 [title_column; tags_column]
           title_column 100 900).
  - apply list_elem_of_here.
  - unfold minWidth, maxWidth. simpl. lia.
Defined.

(** ** The column order and the columns *)

(** C7: a render pass replaces the cached column order by the registry's id
    sequence when the two differ in length, and only then: an order of the
    same length is kept as it is, whatever ids it holds. *)
Theorem render_resyncs_on_length_only
    (columnOrder : list string) (columns : list TableColumn) :
  (length columnOrder ≠ length columns ->
   render_columnOrder columnOrder columns = col_id <$> columns) ∧
  (length columnOrder = length columns ->
   render_columnOrder columnOrder columns = columnOrder).
Proof.
  unfold render_columnOrder, getValueOfAllColumnsAsociatedWith_id.
  split; intros H.
  - by rewrite decide_True.
  - rewrite decide_False; [done|]. by intros ?.
Qed.

Lemma render_resyncs_on_length_only_witness :
  render_columnOrder ["title"] [title_column; tags_column] = ["title"; "tags"] ∧
  render_columnOrder ["author"; "date"] [title_column; tags_column]
  = ["author"; "date"] ∧
  ["author"; "date"] ≠ col_id <$> [title_column; tags_column].
Proof.
  split; [|split].
  - apply (render_resyncs_on_length_only ["title"] [title_column; tags_column]).
    simpl. lia.
  - apply (render_resyncs_on_length_only ["author"; "date"]
             [title_column; tags_column]).
    reflexivity.
  - discriminate.
Defined.

(** ** The new-row input *)

(** C8: whatever the input holds, adding a row calls addRow with it and then
    resets the input state (and the input element) to the empty string, in
    that order; this is so too when addRow creates no row.  An Enter key
    press in the input does the same, any other key does nothing. *)
Theorem add_row_always_clears_input
    (addRow : string -> list string -> list string) (st : NewRowState) :
  inputNewRow (handleAddNewRow addRow st) = "" ∧
  newRowRef_value (handleAddNewRow addRow st) = "" ∧
  rows (handleAddNewRow addRow st) = addRow (inputNewRow st) (rows st) ∧
  effects (handleAddNewRow addRow st) =
    effects st ++ [CallAddRow (inputNewRow st); CallSetInputNewRow "";
                   WriteNewRowRef ""] ∧
  handleKeyDown addRow "Enter" st = handleAddNewRow addRow st ∧
  (∀ key, key ≠ "Enter" -> handleKeyDown addRow key st = st) ∧
  (addRow (inputNewRow st) (rows st) = rows st ->
   rows (handleAddNewRow addRow st) = rows st ∧
   inputNewRow (handleAddNewRow addRow st) = "").
Proof.
  repeat split; try done.
  intros key Hkey. unfold handleKeyDown. by rewrite decide_False.
Qed.

Lemma add_row_always_clears_input_witness :
  rows (handleAddNewRow addRow_spec
          {| inputNewRow := "  "; newRowRef_value := "  ";
             rows := ["note"]; effects := [] |}) = ["note"] ∧
  inputNewRow (handleAddNewRow addRow_spec
                 {| inputNewRow := "  "; newRowRef_value := "  ";
                    rows := ["note"]; effects := [] |}) = "".
Proof.
  apply (add_row_always_clears_input addRow_spec
           {| inputNewRow := "  "; newRowRef_value := "  ";
              rows := ["note"]; effects := [] |}).
  reflexivity.
Defined.

(** ** The global filter *)

Lemma append_cons (a : ascii) (s t : string) :
  String a s +:+ t = String a (s +:+ t).
Proof. reflexivity. Qed.

Lemma prefix_spec (sub s : string) :
  String.prefix sub s = true ↔ ∃ b, s = sub +:+ b.
Proof.
  revert s. induction sub as [|a sub IH]; intros s.
  - destruct s; simpl; split; eauto.
  - destruct s as [|b s]; simpl.
    + split; [done|]. intros (x & E). by rewrite append_cons in E.
    + destruct (ascii_dec a b) as [->|Hne].
      * rewrite IH. split; intros (x & E); exists x.
        -- by rewrite append_cons, E.
        -- rewrite append_cons in E. by injection E.
      * split; [done|]. intros (x & E). rewrite append_cons in E. congruence.
Qed.

(** [includes] is the substring test. *)
Lemma includes_spec (s sub : string) :
  includes s sub = true ↔ ∃ a b, s = a +:+ sub +:+ b.
Proof.
  induction s as [|c s IH]; cbn [includes].
  - rewrite orb_false_r, prefix_spec. split.
    + intros (b & E). by exists "", b.
    + intros (a & b & E). destruct a; [by exists b|].
      by rewrite append_cons in E.
  - rewrite orb_true_iff, prefix_spec, IH. split.
    + intros [(b & E) | (a & b & E)].
      * by exists "", b.
      * exists (String c a), b. by rewrite append_cons, E.
    + intros (a & b & E). destruct a as [|c' a].
      * left. by exists b.
      * right. exists a, b. rewrite append_cons in E. by injection E.
Qed.

(** A cell passes when its value, made a string, has the filter text in it,
    both in lower case. *)
Lemma globalDatabaseFilterFn_spec toLowerCase row columnId filterValue :
  globalDatabaseFilterFn toLowerCase row columnId filterValue = true ↔
  ∃ a b, toLowerCase (stringify (row_fields row !! columnId))
         = a +:+ toLowerCase filterValue +:+ b.
Proof. apply includes_spec. Qed.

Lemma existsb_elem_of {X} (f : X -> bool) (l : list X) :
  existsb f l = true ↔ ∃ x, x ∈ l ∧ f x = true.
Proof.
  rewrite existsb_exists. split; intros (x & H & ?); exists x;
    by rewrite list_elem_of_In in *.
Qed.

Lemma can_filter_iff hasAccessorFn (columns : list TableColumn) c :
  c ∈ filter (fun c => getCanGlobalFilter hasAccessorFn c) columns ↔
  c ∈ columns ∧ hasAccessorFn c = true.
Proof.
  rewrite list_elem_of_filter. unfold getCanGlobalFilter, getColumnCanGlobalFilter.
  simpl. rewrite Is_true_true. tauto.
Qed.

(** C4, as the claim states it, fails: with the tags column hidden, the text
    "alp" is in no visible column of the note, and the note survives the
    filter all the same, through its hidden tags. *)
Lemma hidden_column_match_survives :
  getIsVisible tags_hidden tags_column = false ∧
  alpha_note ∈ getFilteredRowModel toLowerCase_ascii (fun _ => true)
                 [title_column; tags_column] [alpha_note] "alp" ∧
  ¬ matches_visible_column toLowerCase_ascii tags_hidden
      [title_column; tags_column] alpha_note "alp".
Proof.
  split; [reflexivity|]. split.
  - vm_compute. apply list_elem_of_here.
  - intros (c & Hc & Hvis & Hm).
    apply elem_of_cons in Hc as [->|Hc].
    + vm_compute in Hm. discriminate.
    + apply list_elem_of_singleton in Hc as ->.
      vm_compute in Hvis. discriminate.
Qed.

(** C4, amended: with the empty filter text every row survives, and so it
    does when no column can be filtered globally (none has an accessor);
    with any other filter text and at least one such column, a row survives
    exactly when the value of one of the columns that can be filtered,
    visible or hidden, made a string, has the filter text in it, letter case
    apart. *)
Theorem global_filter_looks_at_all_columns
    (toLowerCase : string -> string) (hasAccessorFn : TableColumn -> bool)
    (columns : list TableColumn) (rows : list RowDataType)
    (filterText : string) (row : RowDataType) :
  (filterText = "" ->
   getFilteredRowModel toLowerCase hasAccessorFn columns rows filterText = rows) ∧
  ((∀ c, c ∈ columns -> hasAccessorFn c = false) ->
   getFilteredRowModel toLowerCase hasAccessorFn columns rows filterText = rows) ∧
  (filterText ≠ "" -> (∃ c, c ∈ columns ∧ hasAccessorFn c = true) ->
   (row ∈ getFilteredRowModel toLowerCase hasAccessorFn columns rows filterText ↔
    row ∈ rows ∧
    ∃ c a b, c ∈ columns ∧ hasAccessorFn c = true ∧
             toLowerCase (stringify (row_fields row !! col_id c))
             = a +:+ toLowerCase filterText +:+ b)).
Proof.
  unfold getFilteredRowModel. split; [|split].
  - intros Hft. by rewrite decide_True.
  - intros Hnone. destruct (decide (filterText = "")); [done|].
    rewrite decide_True; [done|].
    destruct (filter _ columns) as [|c cs] eqn:E; [done|].
    assert (c ∈ filter (fun c => getCanGlobalFilter hasAccessorFn c) columns)
      as [Hc Hacc]%can_filter_iff by (rewrite E; apply list_elem_of_here).
    rewrite (Hnone c Hc) in Hacc. discriminate.
  - intros Hft (c0 & Hc0 & Hacc0). rewrite decide_False by done.
    assert (c0 ∈ filter (fun c => getCanGlobalFilter hasAccessorFn c) columns)
      as Hin0 by (by apply can_filter_iff).
    rewrite decide_False
      by (intros Hlen; apply nil_length_inv in Hlen; rewrite Hlen in Hin0;
          by apply elem_of_nil in Hin0).
    rewrite list_elem_of_filter, Is_true_true, existsb_elem_of. split.
    + intros [(c & [Hc Hacc]%can_filter_iff & Hm) Hrow]. split; [done|].
      apply globalDatabaseFilterFn_spec in Hm as (a & b & E). by exists c, a, b.
    + intros [Hrow (c & a & b & Hc & Hacc & E)]. split; [|done].
      exists c. split; [by apply can_filter_iff|].
      apply globalDatabaseFilterFn_spec. by exists a, b.
Qed.

Lemma global_filter_looks_at_all_columns_witness :
  getFilteredRowModel toLowerCase_ascii (fun _ => true)
    [title_column; tags_column] [alpha_note] "" = [alpha_note] ∧
  getFilteredRowModel toLowerCase_ascii (fun _ => false)
    [title_column; tags_column] [alpha_note] "zzz" = [alpha_note] ∧
  (alpha_note ∈ getFilteredRowModel toLowerCase_ascii (fun _ => true)
                  [title_column; tags_column] [alpha_note] "alp" ↔
   alpha_note ∈ [alpha_note] ∧
   ∃ c a b, c ∈ [title_column; tags_column] ∧ true = true ∧
            toLowerCase_ascii (stringify (row_fields alpha_note !! col_id c))
            = a +:+ toLowerCase_ascii "alp" +:+ b).
Proof.
  split; [|split].
  - destruct (global_filter_looks_at_all_columns toLowerCase_ascii
                (fun _ => true) [title_column; tags_column] [alpha_note] ""
                alpha_note) as (H & _ & _).
    apply H. reflexivity.
  - destruct (global_filter_looks_at_all_columns toLowerCase_ascii
                (fun _ => false) [title_column; tags_column] [alpha_note] "zzz"
                alpha_note) as (_ & H & _).
    apply H. reflexivity.
  - destruct (global_filter_looks_at_all_columns toLowerCase_ascii
                (fun _ => true) [title_column; tags_column] [alpha_note] "alp"
                alpha_note) as (_ & _ & H).
    apply H.
    + discriminate.
    + exists title_column. split; [apply list_elem_of_here|reflexivity].
Defined.

(** ** Pagination *)

Lemma past_last_page (n size i : nat) :
  0 < size -> lastValidPage n size < i -> n ≤ size * i.
Proof.
  unfold lastValidPage. intros Hsize Hlt.
  pose proof (Nat.div_mod_eq (n - 1) size) as Hdm.
  pose proof (Nat.mod_upper_bound (n - 1) size) as Hmod.
  nia.
Qed.

(** C5, as the claim states it, fails: 25 rows in pages of 10, on the third
    page (index 2, rows 21 to 25); 20 rows go.  The next derivation still has
    page index 2, not the last valid page 0, and its page is empty. *)
Lemma page_index_not_clamped :
  getPaginationRowModel (seq 1 25) {| pageIndex := 2; pageSize := 10 |}
  = [21; 22; 23; 24; 25] ∧
  lastValidPage (length (seq 1 5)) 10 = 0 ∧
  pageIndex (afterDataChange {| pageIndex := 2; pageSize := 10 |}) = 2 ∧
  getPaginationRowModel (seq 1 5)
    (afterDataChange {| pageIndex := 2; pageSize := 10 |}) = [].
Proof. repeat split. Qed.

(** C5, amended: when the rows shrink so that the page index is past the
    last valid page, the next derivation raises no error, the page index is
    left as it was (the table is told not to reset it, and nothing clamps
    it), and the page derived is empty.  A page index that has rows at its
    start gives a page that is not empty. *)
Theorem page_index_kept_after_shrink
    {R : Type} (rows : list R) (p : PaginationState) :
  afterDataChange p = p ∧
  getPaginationRowModel rows (afterDataChange p)
  = take (pageSize p) (drop (pageSize p * pageIndex p) rows) ∧
  (0 < pageSize p -> lastValidPage (length rows) (pageSize p) < pageIndex p ->
   pageIndex (afterDataChange p) = pageIndex p ∧
   getPaginationRowModel rows (afterDataChange p) = []) ∧
  (0 < pageSize p -> pageSize p * pageIndex p < length rows ->
   getPaginationRowModel rows (afterDataChange p) ≠ []).
Proof.
  split; [done|]. split; [done|]. unfold afterDataChange, getPaginationRowModel.
  simpl. split.
  - intros Hsize Hpast. split; [done|].
    rewrite drop_ge; [by rewrite take_nil|]. by apply past_last_page.
  - intros Hsize Hin Hnil. apply (f_equal length) in Hnil.
    rewrite length_take, length_drop in Hnil. simpl in Hnil. lia.
Qed.

Lemma page_index_kept_after_shrink_witness :
  pageIndex (afterDataChange {| pageIndex := 2; pageSize := 10 |}) = 2 ∧
  getPaginationRowModel (seq 1 5)
    (afterDataChange {| pageIndex := 2; pageSize := 10 |}) = [].
Proof.
  apply (page_index_kept_after_shrink (seq 1 5) {| pageIndex := 2; pageSize := 10 |}).
  - simpl. lia.
  - vm_compute. lia.
Defined.

(** * Further properties of the code *)

(** ** reorderColumn on any array *)

Section js_array_more.
Context {A : Type} `{EqDecision A}.
Implicit Types (x y : A) (l : list A).

Lemma indexOf_from_range i x l :
  indexOf_from i x l = (-1)%Z ∨
  (i ≤ indexOf_from i x l < i + Z.of_nat (length l))%Z.
Proof.
  revert i. induction l as [|y l IH]; intros i; simpl; [by left|].
  destruct (decide (y = x)); [right; lia|].
  destruct (IH (i + 1)%Z) as [->|?]; [by left|right; lia].
Qed.

Lemma actualStart_le start l : actualStart start l ≤ length l.
Proof. unfold actualStart. destruct (Z.ltb_spec start 0); lia. Qed.

Lemma actualStart_indexOf x l : l ≠ [] -> actualStart (indexOf x l) l < length l.
Proof.
  intros Hl. assert (0 < length l) by (destruct l; [done|simpl; lia]).
  unfold actualStart, indexOf.
  destruct (indexOf_from_range 0 x l) as [->|?]; simpl; [lia|].
  destruct (Z.ltb_spec (indexOf_from 0 x l) 0); lia.
Qed.

Lemma splice_delete_one start l :
  actualStart start l < length l ->
  ∃ x, l !! actualStart start l = Some x ∧
       splice start 1 [] l = ([x], delete (actualStart start l) l).
Proof.
  intros Hlt. destruct (lookup_lt_is_Some_2 _ _ Hlt) as [x Hx].
  exists x. split; [done|]. unfold splice.
  replace (Z.to_nat _) with 1 by lia.
  rewrite delete_take_drop, Nat.add_1_r, (drop_S _ _ _ Hx). simpl.
  by rewrite take_0.
Qed.

Lemma splice_insert_one start y l :
  splice start 0 [y] l =
    ([], take (actualStart start l) l ++ y :: drop (actualStart start l) l).
Proof.
  unfold splice. replace (Z.to_nat _) with 0 by lia.
  by rewrite take_0, Nat.add_0_r.
Qed.
End js_array_more.

(** On an array that is not empty, [reorderColumn] takes one element out and
    puts that element back. *)
Lemma reordered_shape (d t : string) (a : list cell) :
  a ≠ [] ->
  ∃ k j x, a !! k = Some x ∧ j ≤ length (delete k a) ∧
           reordered d t a = take j (delete k a) ++ x :: drop j (delete k a).
Proof.
  intros Ha. unfold reordered.
  destruct (splice_delete_one (indexOf (Some d) a) a) as (x & Hx & ->);
    [by apply actualStart_indexOf|].
  cbv beta iota. cbn [first_elem]. rewrite splice_insert_one. cbn [snd].
  eexists _, _, x. split; [exact Hx|]. split; [apply actualStart_le|done].
Qed.

Lemma reorderColumn_result (d t : string) (r : ref) (a : list cell) (h : store) :
  h !! r = Some a ->
  ∃ r' h', reorderColumn d t r h = Some (r', h') ∧
           h' !! r' = Some (reordered d t a) ∧
           h' !! r = Some (reordered d t a).
Proof.
  intros Hr. eexists _, _. split; [by apply reorderColumn_run|].
  split; [by rewrite lookup_insert_eq|].
  rewrite lookup_insert_ne, lookup_insert_eq; [done|].
  intros E. pose proof (fresh_ref_unused h) as Hf. rewrite E in Hf. congruence.
Qed.

(** X1: on every array that is not empty, whatever the two ids are (in the
    array or not), the array reorderColumn returns and the one it leaves
    behind hold the same elements as before, each as often: no column is
    lost or doubled by a drag with an unknown id. *)
Theorem reorderColumn_permutation_any
    (d t : string) (a : list cell) (r : ref) (h : store) :
  h !! r = Some a -> a ≠ [] ->
  ∃ r' h' a',
    reorderColumn d t r h = Some (r', h') ∧
    h' !! r' = Some a' ∧ h' !! r = Some a' ∧ a' ≡ₚ a.
Proof.
  intros Hr Ha.
  destruct (reorderColumn_result d t r a h Hr) as (r' & h' & Hrun & Hret & Harg).
  exists r', h', (reordered d t a). repeat split; try done.
  destruct (reordered_shape d t a Ha) as (k & j & x & Hx & _ & ->).
  rewrite <- Permutation_middle, take_drop. symmetry. by apply delete_Permutation.
Qed.

Lemma reorderColumn_permutation_any_witness :
  ∃ r' h' a',
    reorderColumn "zz" "a" 7 abc_store = Some (r', h') ∧
    h' !! r' = Some a' ∧ h' !! 7 = Some a' ∧ a' ≡ₚ ids ["a"; "b"; "c"].
Proof.
  apply (reorderColumn_permutation_any "zz" "a" (ids ["a"; "b"; "c"]) 7 abc_store).
  - reflexivity.
  - discriminate.
Defined.

(** X2: reorderColumn never changes the length of an array that is not
    empty; an empty array comes back with one element, [undefined]. *)
Theorem reorderColumn_length
    (d t : string) (a : list cell) (r : ref) (h : store) :
  h !! r = Some a ->
  ∃ r' h' a',
    reorderColumn d t r h = Some (r', h') ∧ h' !! r' = Some a' ∧
    length a' = length a `max` 1 ∧ (a = [] -> a' = [None]).
Proof.
  intros Hr.
  destruct (reorderColumn_result d t r a h Hr) as (r' & h' & Hrun & Hret & _).
  exists r', h', (reordered d t a). repeat split; try done.
  - destruct (decide (a = [])) as [->|Ha]; [done|].
    destruct (reordered_shape d t a Ha) as (k & j & x & Hx & Hj & ->).
    pose proof (length_delete a k (mk_is_Some _ _ Hx)) as Hlen.
    apply lookup_lt_Some in Hx.
    rewrite length_app. simpl. rewrite length_take, length_drop. lia.
  - by intros ->.
Qed.

Lemma reorderColumn_length_witness :
  ∃ r' h' a',
    reorderColumn "a" "c" 7 abc_store = Some (r', h') ∧ h' !! r' = Some a' ∧
    length a' = length (ids ["a"; "b"; "c"]) `max` 1 ∧
    (ids ["a"; "b"; "c"] = [] -> a' = [None]).
Proof.
  apply (reorderColumn_length "a" "c" (ids ["a"; "b"; "c"]) 7 abc_store).
  reflexivity.
Defined.

Lemma actualStart_minus_one {A} (l : list A) :
  actualStart (-1) l = length l - 1.
Proof. unfold actualStart. simpl. lia. Qed.

Lemma indexOf_in_range (x : string) (l : list string) :
  x ∈ l -> ∃ i, indexOf x l = Z.of_nat i ∧ i < length l.
Proof.
  intros (p & s & -> & Hp)%list_elem_of_split_l.
  exists (length p). split; [by apply indexOf_first|].
  rewrite length_app. simpl. lia.
Qed.

(** X3: when the dragged id is not in the order (and the target is),
    reorderColumn moves the last id of the order instead: it takes the last
    id out and puts it at the index of the target. *)
Theorem reorderColumn_unknown_dragged
    (d t x : string) (l0 : list string) (r : ref) (h : store) :
  h !! r = Some (ids (l0 ++ [x])) -> d ∉ l0 ++ [x] -> t ∈ l0 ++ [x] ->
  ∃ r' h',
    reorderColumn d t r h = Some (r', h') ∧
    h' !! r' = Some (ids (take (Z.to_nat (indexOf t (l0 ++ [x]))) l0 ++
                          x :: drop (Z.to_nat (indexOf t (l0 ++ [x]))) l0)).
Proof.
  intros Hr Hd Ht.
  destruct (reorderColumn_result d t r _ h Hr) as (r' & h' & Hrun & Hret & _).
  exists r', h'. split; [done|]. rewrite Hret. f_equal.
  destruct (indexOf_in_range t _ Ht) as (i & Hi & Hlt).
  rewrite length_app in Hlt. simpl in Hlt.
  unfold reordered. rewrite !indexOf_ids, Hi, Nat2Z.id.
  assert (indexOf d (l0 ++ [x]) = (-1)%Z) as ->
    by (by apply indexOf_from_absent).
  assert (ids (l0 ++ [x]) = ids l0 ++ [Some x]) as ->
    by (unfold ids; by rewrite fmap_app).
  assert (length (ids l0) = length l0) as Hlen
    by (unfold ids; by rewrite length_fmap).
  destruct (splice_delete_one (-1) (ids l0 ++ [Some x])) as (y & Hy & ->).
  { rewrite actualStart_minus_one, length_app. simpl. lia. }
  rewrite actualStart_minus_one, length_app in *.
  change (length [Some x]) with 1 in *.
  replace (length (ids l0) + 1 - 1) with (length (ids l0)) in * by lia.
  rewrite list_lookup_middle in Hy by done. simplify_eq.
  rewrite delete_take_drop, take_app_length, drop_app_ge by lia.
  replace (S _ - _) with 1 by lia.
  change (drop 1 [Some x]) with (@nil cell). rewrite app_nil_r.
  cbv beta iota. cbn [first_elem].
  rewrite splice_insert_at by lia.
  cbn [snd]. unfold ids. by rewrite <- fmap_take, <- fmap_drop, fmap_app.
Qed.

Lemma reorderColumn_unknown_dragged_witness :
  ∃ r' h',
    reorderColumn "zz" "a" 7 abc_store = Some (r', h') ∧
    h' !! r' = Some (ids (take (Z.to_nat (indexOf "a" (["a"; "b"] ++ ["c"])))
                               ["a"; "b"] ++
                          "c" :: drop (Z.to_nat (indexOf "a" (["a"; "b"] ++ ["c"])))
                                      ["a"; "b"])).
Proof.
  apply (reorderColumn_unknown_dragged "zz" "a" "c" ["a"; "b"] 7 abc_store).
  - reflexivity.
  - intros Hin. repeat (apply elem_of_cons in Hin as [Hin|Hin]; [discriminate|]).
    by apply elem_of_nil in Hin.
  - apply list_elem_of_here.
Defined.

(** X4: when the target id is not in the order (and the dragged id is),
    reorderColumn puts the dragged id back before the last of the other
    ids. *)
Theorem reorderColumn_unknown_target
    (d t : string) (l : list string) (r : ref) (h : store) :
  h !! r = Some (ids l) -> d ∈ l -> t ∉ l ->
  ∃ r' h',
    reorderColumn d t r h = Some (r', h') ∧
    h' !! r' = Some (ids (take (length (remove_first d l) - 1) (remove_first d l)
                          ++ d :: drop (length (remove_first d l) - 1)
                                       (remove_first d l))).
Proof.
  intros Hr Hd Ht.
  destruct (reorderColumn_result d t r _ h Hr) as (r' & h' & Hrun & Hret & _).
  exists r', h'. split; [done|]. rewrite Hret. f_equal.
  destruct (list_elem_of_split_l _ _ Hd) as (p & s & -> & Hp).
  unfold reordered. rewrite !indexOf_ids.
  assert (indexOf t (p ++ d :: s) = (-1)%Z) as ->
    by (by apply indexOf_from_absent).
  rewrite indexOf_first, remove_first_split by done.
  unfold ids. rewrite fmap_app, fmap_cons, <- (length_fmap Some p).
  rewrite splice_remove_at. cbv beta iota. cbn [first_elem].
  rewrite splice_insert_one, actualStart_minus_one. cbn [snd].
  by rewrite <- fmap_app, length_fmap, <- fmap_take, <- fmap_drop, fmap_app.
Qed.

Lemma reorderColumn_unknown_target_witness :
  ∃ r' h',
    reorderColumn "a" "zz" 7 abc_store = Some (r', h') ∧
    h' !! r' = Some (ids (take (length (remove_first "a" ["a"; "b"; "c"]) - 1)
                               (remove_first "a" ["a"; "b"; "c"])
                          ++ "a" :: drop (length (remove_first "a" ["a"; "b"; "c"]) - 1)
                                         (remove_first "a" ["a"; "b"; "c"]))).
Proof.
  apply (reorderColumn_unknown_target "a" "zz" ["a"; "b"; "c"] 7 abc_store).
  - reflexivity.
  - apply list_elem_of_here.
  - intros Hin. repeat (apply elem_of_cons in Hin as [Hin|Hin]; [discriminate|]).
    by apply elem_of_nil in Hin.
Defined.

Lemma remove_first_absent (d : string) (l : list string) :
  NoDup l -> d ∉ remove_first d l.
Proof.
  induction 1 as [|x l Hx Hnd IH]; simpl; [apply not_elem_of_nil|].
  destruct (decide (x = d)) as [->|Hne]; [done|].
  apply not_elem_of_cons. split; [congruence|done].
Qed.

Lemma remove_first_length (d : string) (l : list string) :
  d ∈ l -> S (length (remove_first d l)) = length l.
Proof.
  intros (p & s & -> & Hp)%list_elem_of_split_l.
  rewrite remove_first_split by done. rewrite !length_app. simpl. lia.
Qed.

(** X5: in an order without repeated ids that has both ids, after
    reorderColumn the dragged id stands at the index the target id had, and
    the other ids follow each other as before. *)
Theorem reorderColumn_takes_target_slot
    (d t : string) (l : list string) (r : ref) (h : store) :
  h !! r = Some (ids l) -> NoDup l -> d ∈ l -> t ∈ l ->
  ∃ r' h' l',
    reorderColumn d t r h = Some (r', h') ∧ h' !! r' = Some (ids l') ∧
    indexOf d l' = indexOf t l ∧
    remove_first d l' = remove_first d l ∧
    NoDup l'.
Proof.
  intros Hr Hnd Hd Ht.
  destruct (reorderColumn_result d t r _ h Hr) as (r' & h' & Hrun & Hret & _).
  exists r', h', (move_to_target_index d t l).
  split; [done|]. split; [by rewrite Hret, reordered_ids|].
  pose proof (remove_first_absent d l Hnd) as Habs.
  pose proof (remove_first_length d l Hd) as Hlen.
  destruct (indexOf_in_range t l Ht) as (i & Hi & Hlt).
  unfold move_to_target_index. rewrite Hi, Nat2Z.id.
  assert (d ∉ take i (remove_first d l)) as Htake.
  { intros Hin. apply Habs. rewrite <- (take_drop i (remove_first d l)).
    apply elem_of_app. by left. }
  split; [|split].
  - rewrite indexOf_first by done. rewrite length_take. f_equal. lia.
  - rewrite remove_first_split by done. apply take_drop.
  - assert (take i (remove_first d l) ++ d :: drop i (remove_first d l) ≡ₚ l)
      as ->; [|done].
    rewrite <- Permutation_middle, take_drop. by apply remove_first_perm.
Qed.

Lemma reorderColumn_takes_target_slot_witness :
  ∃ r' h' l',
    reorderColumn "a" "c" 7 abc_store = Some (r', h') ∧ h' !! r' = Some (ids l') ∧
    indexOf "a" l' = indexOf "c" ["a"; "b"; "c"] ∧
    remove_first "a" l' = remove_first "a" ["a"; "b"; "c"] ∧
    NoDup l'.
Proof.
  apply (reorderColumn_takes_target_slot "a" "c" ["a"; "b"; "c"] 7 abc_store).
  - reflexivity.
  - apply (bool_decide_unpack (NoDup ["a"; "b"; "c"])). by vm_compute.
  - apply list_elem_of_here.
  - do 2 apply list_elem_of_further. apply list_elem_of_here.
Defined.

(** ** The column order across render passes *)

(** X6: whatever the cached order was, the order a render pass leaves has as
    many ids as there are columns, and a second pass over the same columns
    changes nothing. *)
Theorem render_columnOrder_levels
    (columnOrder : list string) (columns : list TableColumn) :
  length (render_columnOrder columnOrder columns) = length columns ∧
  render_columnOrder (render_columnOrder columnOrder columns) columns
  = render_columnOrder columnOrder columns.
Proof.
  assert (length (render_columnOrder columnOrder columns) = length columns) as H.
  { unfold render_columnOrder, getValueOfAllColumnsAsociatedWith_id.
    destruct (decide _) as [Hne|Heq]; [by rewrite length_fmap|].
    by apply dec_stable in Heq. }
  split; [done|].
  unfold render_columnOrder at 1. rewrite decide_False; [done|]. by intros ?.
Qed.

(** X7: a drag does not set off a resynchronisation.  When the cached order
    has as many ids as there are columns and has both ids, the order
    reorderColumn returns is kept as it is by the next render pass. *)
Theorem reorderColumn_then_render
    (d t : string) (l : list string) (columns : list TableColumn)
    (r : ref) (h : store) :
  h !! r = Some (ids l) -> d ∈ l -> t ∈ l -> length l = length columns ->
  ∃ r' h' l',
    reorderColumn d t r h = Some (r', h') ∧ h' !! r' = Some (ids l') ∧
    render_columnOrder l' columns = l'.
Proof.
  intros Hr Hd Ht Hlen.
  destruct (reorderColumn_result d t r _ h Hr) as (r' & h' & Hrun & Hret & _).
  exists r', h', (move_to_target_index d t l).
  split; [done|]. split; [by rewrite Hret, reordered_ids|].
  unfold render_columnOrder. rewrite decide_False; [done|].
  intros Hne. apply Hne. rewrite <- Hlen.
  apply Permutation_length, move_perm. done.
Qed.

Lemma reorderColumn_then_render_witness :
  ∃ r' h' l',
    reorderColumn "c" "a" 7 abc_store = Some (r', h') ∧ h' !! r' = Some (ids l') ∧
    render_columnOrder l' [title_column; tags_column; title_column] = l'.
Proof.
  apply (reorderColumn_then_render "c" "a" ["a"; "b"; "c"]
           [title_column; tags_column; title_column] 7 abc_store).
  - reflexivity.
  - do 2 apply list_elem_of_further. apply list_elem_of_here.
  - apply list_elem_of_here.
  - reflexivity.
Defined.

(** ** More on the delayed commit *)

(** X8: the sizing handler goes through exactly when a column is being
    resized and that column has an entry in columnSizingStart; otherwise
    (no column being resized, or no entry for it) it raises the TypeError
    of reading columnToUpdate[0]. *)
Theorem onColumnSizingChange_succeeds_iff
    (i : ColumnSizingInfo) (u : gmap string Z -> gmap string Z)
    (st : TableState) :
  is_Some (onColumnSizingChange i u st) ↔
  ∃ c, isResizingColumn i = Some c ∧ c ∈ (columnSizingStart i).*1.
Proof.
  unfold onColumnSizingChange.
  destruct (List.find _ _) as [cu|] eqn:Hfind; simpl.
  - apply find_some in Hfind as [Hin Hc%bool_decide_eq_true].
    split; [|by eauto]. intros _. exists cu.1. split; [done|].
    apply list_elem_of_fmap_2, list_elem_of_In, Hin.
  - split; [by intros [? ?]|]. intros (c & Hc & Hin).
    apply list_elem_of_fmap in Hin as ([c' s] & -> & Hin).
    pose proof (find_none _ _ Hfind (c', s)) as Hnone.
    rewrite <- list_elem_of_In in Hnone. specialize (Hnone Hin).
    apply bool_decide_eq_false in Hnone. simpl in *. congruence.
Qed.

Lemma proposal_resizes c s e :
  resizes c s e -> proposal e = Some (c, (s + deltaOffset (info e))%Z).
Proof. intros [_ H]. unfold proposal. by rewrite H. Qed.

(** Events that each come 1500 ms or more after the one before: every
    pending commit is called before the next event arms its own. *)
Lemma run_spaced evs : ∀ st pc,
  armed st pc -> due pc = now st + 1500 ->
  Forall (fun e => 1500 ≤ after e) evs ->
  Forall (fun e => ∃ c s, resizes c s e) evs ->
  ∃ st' pc',
    run evs st = Some st' ∧ armed st' pc' ∧ due pc' = now st' + 1500 ∧
    (Some ∘ call_args <$> alterColumnSize_calls st') ++
      [Some (commit_column pc', commit_width pc')] =
    (Some ∘ call_args <$> alterColumnSize_calls st) ++
      [Some (commit_column pc, commit_width pc)] ++ (proposal <$> evs).
Proof.
  induction evs as [|e evs IH]; intros st pc Harmed Hdue Hgap Hev.
  - exists st, pc. by repeat split.
  - apply Forall_cons in Hgap as [Hgap1 Hgap]. cbv beta in Hgap1.
    apply Forall_cons in Hev as [(c & s & Hres) Hev].
    assert (due pc ≤ now st + after e) as Hlate by lia.
    destruct (advance_due (after e) st pc Harmed Hlate) as [Hnone Hcalls1].
    destruct (onColumnSizingChange_arms c s e (advance (after e) st) Hres
                (or_introl Hnone))
      as (st2 & Hstep & Hnow2 & Hcalls2 & Harmed2).
    assert (now (advance (after e) st) + 1500 = now st2 + 1500) as Hdue2 by lia.
    destruct (IH st2 _ Harmed2 Hdue2 Hgap Hev)
      as (st' & pc' & Hrun & Harmed' & Hdue' & Hlist).
    exists st', pc'. split; [cbn [run]; by rewrite Hstep|].
    split; [done|]. split; [done|].
    rewrite Hlist, Hcalls2, Hcalls1, fmap_app, (fmap_cons proposal).
    rewrite (proposal_resizes _ _ _ Hres). cbn.
    by rewrite <- !app_assoc.
Qed.

(** X9: events that come 1500 ms or more apart are each committed: after
    the silence, alterColumnSize has been called once per event, in the
    order of the events, each time with that event's column and width. *)
Theorem spaced_events_each_commit
    (t0 : nat) (sizing : gmap string Z) (evs : list SizingEvent) :
  Forall (fun e => ∃ c s, resizes c s e) evs ->
  Forall (fun e => 1500 ≤ after e) (tail evs) ->
  ∃ st,
    run evs (initialState t0 sizing) = Some st ∧
    ∀ T, 1500 ≤ T ->
         Some ∘ call_args <$> alterColumnSize_calls (advance T st)
         = proposal <$> evs.
Proof.
  intros Hev Hgap. destruct evs as [|e1 evs].
  - exists (initialState t0 sizing). split; [done|]. intros T _.
    by rewrite advance_idle.
  - simpl in Hgap. apply Forall_cons in Hev as [(c & s & Hres) Hev].
    set (st0 := advance (after e1) (initialState t0 sizing)).
    assert (one_timer st0) as Hone
      by apply advance_one_timer, initialState_one_timer.
    destruct (onColumnSizingChange_arms c s e1 st0 Hres Hone)
      as (st1 & Hstep & Hnow1 & Hcalls1 & Harmed1).
    assert (now st0 + 1500 = now st1 + 1500) as Hdue1 by lia.
    destruct (run_spaced evs st1 _ Harmed1 Hdue1 Hgap Hev)
      as (st & pc & Hrun & Harmed & Hdue & Hlist).
    assert (alterColumnSize_calls st1 = []) as Hnil.
    { rewrite Hcalls1. by apply advance_idle. }
    rewrite Hnil in Hlist.
    exists st. split; [cbn [run]; fold st0; by rewrite Hstep|].
    intros T HT. assert (due pc ≤ now st + T) as Hlate by lia.
    destruct (advance_due T st pc Harmed Hlate) as [_ ->].
    rewrite fmap_app, (fmap_cons proposal), (proposal_resizes _ _ _ Hres).
    exact Hlist.
Qed.

Lemma spaced_events_each_commit_witness :
  ∃ st,
    run [drag "title" 100 0 5; drag "tags" 80 1500 (-9); drag "title" 105 4000 20]
        (initialState 0 ∅) = Some st ∧
    ∀ T, 1500 ≤ T ->
         Some ∘ call_args <$> alterColumnSize_calls (advance T st)
         = proposal <$> [drag "title" 100 0 5; drag "tags" 80 1500 (-9);
                         drag "title" 105 4000 20].
Proof.
  apply (spaced_events_each_commit 0 ∅).
  - repeat constructor; eexists _, _; split; reflexivity.
  - repeat constructor; simpl; lia.
Defined.

Lemma run_snoc evs e : ∀ st,
  run (evs ++ [e]) st =
    st' ← run evs st;
    onColumnSizingChange (info e) (updater e) (advance (after e) st').
Proof.
  induction evs as [|e' evs IH]; intros st; simpl.
  - by destruct (onColumnSizingChange _ _ _).
  - destruct (onColumnSizingChange _ _ _) as [st1|]; simpl; [apply IH|done].
Qed.

Lemma onColumnSizingChange_sizing c s e st st' :
  resizes c s e ->
  onColumnSizingChange (info e) (updater e) st = Some st' ->
  columnSizing st' =
    <[c := (s + deltaOffset (info e))%Z]> (updater e (columnSizing st)).
Proof.
  intros [_ Hfind]. unfold onColumnSizingChange. rewrite Hfind. simpl.
  by intros [= <-].
Qed.

(** X10: whatever went before, once the last sizing event has been handled
    the live sizing state holds that event's width for its column (not
    clamped), and after 1500 ms of silence the last call of alterColumnSize
    is for that column with exactly the width the sizing state shows. *)
Theorem committed_width_is_live_width
    (evs : list SizingEvent) (e : SizingEvent) (t0 : nat)
    (sizing : gmap string Z) (st : TableState) (c : string) (s : Z) :
  run (evs ++ [e]) (initialState t0 sizing) = Some st -> resizes c s e ->
  columnSizing st !! c = Some (s + deltaOffset (info e))%Z ∧
  ∀ T, 1500 ≤ T ->
       ∃ call, last (alterColumnSize_calls (advance T st)) = Some call ∧
               call_column call = c ∧
               columnSizing (advance T st) !! c = Some (call_width call).
Proof.
  intros Hrun Hres. rewrite run_snoc in Hrun.
  destruct (run evs (initialState t0 sizing)) as [st1|] eqn:Hevs; [|done].
  simpl in Hrun.
  assert (one_timer (advance (after e) st1)) as Hone.
  { apply advance_one_timer. eapply run_one_timer; [|exact Hevs].
    apply initialState_one_timer. }
  destruct (onColumnSizingChange_arms c s e _ Hres Hone)
    as (st' & Hstep & Hnow & _ & Harmed).
  rewrite Hstep in Hrun. injection Hrun as ->.
  assert (columnSizing st !! c = Some (s + deltaOffset (info e))%Z) as Hlive.
  { rewrite (onColumnSizingChange_sizing c s e _ _ Hres Hstep).
    apply lookup_insert_eq. }
  split; [done|]. intros T HT.
  assert (now (advance (after e) st1) + 1500 ≤ now st + T) as Hlate by lia.
  destruct (advance_due T st _ Harmed Hlate) as [_ Hcalls].
  eexists. split; [rewrite Hcalls; apply last_snoc|]. by split.
Qed.

Lemma committed_width_is_live_width_witness :
  columnSizing
    (default (initialState 0 ∅)
       (run ([drag "tags" 80 0 3] ++ [drag "title" 100 200 900]) (initialState 0 ∅)))
    !! "title"
  = Some (100 + deltaOffset (info (drag "title" 100 200 900)))%Z.
Proof.
  apply (committed_width_is_live_width [drag "tags" 80 0 3]
           (drag "title" 100 200 900) 0 ∅ _ "title" 100).
  - reflexivity.
  - split; reflexivity.
Defined.

(** ** More on the new-row input *)

(** X11: the name given to addRow is the text typed last.  After any
    changes of the input, adding the row (by the button or by Enter) calls
    addRow with the value of the last change, and the input is empty
    again. *)
Theorem add_row_uses_last_typed
    (addRow : string -> list string -> list string)
    (typed : list string) (v : string) (st : NewRowState) :
  let st1 := foldl (fun s x => onChange x s) st (typed ++ [v]) in
  rows (handleKeyDown addRow "Enter" st1) = addRow v (rows st) ∧
  rows (handleAddNewRow addRow st1) = addRow v (rows st) ∧
  last (effects st1) = Some (CallSetInputNewRow v) ∧
  inputNewRow (handleAddNewRow addRow st1) = "".
Proof.
  assert (∀ l s, rows (foldl (fun s x => onChange x s) s l) = rows s) as Hrows.
  { induction l as [|x l IH]; intros s; simpl; [done|]. by rewrite IH. }
  cbv zeta. rewrite foldl_app. cbn [foldl].
  unfold handleKeyDown. rewrite decide_True by done.
  unfold handleAddNewRow, onChange. cbn [rows inputNewRow effects].
  rewrite Hrows. repeat split; try done. apply last_snoc.
Qed.

(** ** Links *)

Section links_facts.
Variable view : option string.
Variable filePath : string.
Variable getNormalizedPath_root : option string -> option string.
Variable getFirstLinkpathDest : string -> string -> option string.

(** X12: a click never opens anything without first preventing the default
    action of the event, and never opens more than one thing: the effects of
    onClick are none, or preventDefault alone, or preventDefault followed by
    one opening call. *)
Theorem onClick_effects_shape (e : MouseEvent) (effs : list LinkEffect) :
  onClick view filePath getNormalizedPath_root getFirstLinkpathDest e
  = Some effs ->
  effs = [] ∨ effs = [PreventDefault] ∨
  ∃ x, opens x = true ∧ effs = [PreventDefault; x].
Proof.
  unfold onClick, mbind, option_bind. intros H.
  repeat (match type of H with
          | context [if ?b then _ else _] => destruct b
          | context [match ?x with _ => _ end] => destruct x
          end; simpl in H);
    simplify_eq;
    first [by left | by right; left
          | right; right; eexists; split; [|reflexivity]; reflexivity].
Qed.

(** X13: onClick raises an error only for a click (other than a
    right-button auxclick) on or inside a file-link anchor, and then exactly
    when getNormalizedPath raises on the anchor's href (it is called before
    the href is tested for being a string, so also without an href), or when
    the href is a string and there is no view.  onMouseOver checks for the
    view, onClick does not. *)
Theorem onClick_fails_iff (e : MouseEvent) :
  onClick view filePath getNormalizedPath_root getFirstLinkpathDest e = None ↔
  ¬ (ev_type e = "auxclick" ∧ ev_button e = 2%Z) ∧
  ∃ a, (if decide (tagName (ev_target e) = "A") then Some (ev_target e)
        else ev_closest_a e) = Some a ∧
       hasClass a "file-link" = true ∧
       (getNormalizedPath_root (href a) = None ∨
        (is_Some (href a) ∧ view = None)).
Proof.
  unfold onClick, mbind, option_bind.
  destruct (bool_decide (ev_type e = "auxclick")
            && bool_decide (ev_button e = 2%Z)) eqn:Haux.
  { apply andb_true_iff in Haux as [H1%bool_decide_eq_true H2%bool_decide_eq_true].
    split; [done|]. intros [Hn _]. by destruct Hn. }
  assert (¬ (ev_type e = "auxclick" ∧ ev_button e = 2%Z)) as Hn.
  { intros [H1 H2].
    rewrite (bool_decide_eq_true_2 _ H1), (bool_decide_eq_true_2 _ H2) in Haux.
    discriminate. }
  destruct (if decide (tagName (ev_target e) = "A")
            then Some (ev_target e) else ev_closest_a e) as [a|];
    [|split; [done|]; by intros (_ & ? & ? & _)].
  destruct (hasClass a "file-link") eqn:Hfile.
  2: { destruct (hasClass a "internal-link"); (split; [done|]);
       intros (_ & a' & ? & ? & _); congruence. }
  destruct (getNormalizedPath_root (href a)) as [root|] eqn:Hroot.
  2: { split; [intros _|done]. split; [done|]. exists a. eauto. }
  destruct (href a) as [hr|] eqn:Hhref.
  2: { split; [done|]. intros (_ & a' & Ea & _ & [Hg|[[x Hs] _]]);
       injection Ea as <-.
       - rewrite Hhref, Hroot in Hg. discriminate.
       - rewrite Hhref in Hs. discriminate. }
  destruct view as [v|].
  - destruct (getFirstLinkpathDest root v); split; try done;
      intros (_ & a' & Ea & _ & [Hg|[_ Hv]]); try discriminate;
      injection Ea as <-; rewrite Hhref, Hroot in Hg; discriminate.
  - split; [intros _|done]. split; [done|]. exists a.
    split; [done|]. split; [done|]. right. rewrite Hhref. eauto.
Qed.
End links_facts.

(** X14: hovering and clicking treat an element inside a link differently.
    For an element that is not itself an anchor but lies inside an
    internal-link anchor, onMouseOver does nothing (it looks at the target
    alone), while a click on it opens the link of the anchor around it; the
    link opens in a new leaf exactly for the middle button or with ctrl or
    meta held. *)
Theorem hover_ignores_what_click_follows
    (view : option string) (filePath : string)
    (getNormalizedPath_root : option string -> option string)
    (getFirstLinkpathDest : string -> string -> option string)
    (e : MouseEvent) (a : Element) :
  tagName (ev_target e) ≠ "A" -> ev_closest_a e = Some a ->
  hasClass a "internal-link" = true -> hasClass a "file-link" = false ->
  ¬ (ev_type e = "auxclick" ∧ ev_button e = 2%Z) ->
  onMouseOver view e = [] ∧
  onClick view filePath getNormalizedPath_root getFirstLinkpathDest e
  = Some [PreventDefault;
          OpenLinkText (href a) filePath
            (bool_decide (ev_button e = 1%Z) || ev_ctrlKey e || ev_metaKey e)].
Proof.
  intros Htag Hclosest Hint Hfile Haux. split.
  - unfold onMouseOver. destruct view; [|done]. by rewrite decide_True.
  - unfold onClick.
    assert (bool_decide (ev_type e = "auxclick")
            && bool_decide (ev_button e = 2%Z) = false) as ->.
    { apply andb_false_iff.
      destruct (decide (ev_type e = "auxclick")) as [Ht|Ht].
      - right. apply bool_decide_eq_false. tauto.
      - left. by apply bool_decide_eq_false. }
    rewrite decide_False by done. by rewrite Hclosest, Hfile, Hint.
Qed.

Lemma hover_ignores_what_click_follows_witness :
  onMouseOver (Some "db.md") (click_on link_text (Some note_link)) = [] ∧
  onClick (Some "db.md") "db.md" (fun s => s) (fun _ _ => None)
    (click_on link_text (Some note_link))
  = Some [PreventDefault;
          OpenLinkText (href note_link) "db.md"
            (bool_decide (ev_button (click_on link_text (Some note_link)) = 1%Z)
             || ev_ctrlKey (click_on link_text (Some note_link))
             || ev_metaKey (click_on link_text (Some note_link)))].
Proof.
  apply (hover_ignores_what_click_follows (Some "db.md") "db.md" (fun s => s)
           (fun _ _ => None) (click_on link_text (Some note_link)) note_link).
  - discriminate.
  - reflexivity.
  - reflexivity.
  - reflexivity.
  - intros [H _]. discriminate H.
Defined.

Lemma onClick_effects_shape_witness :
  [PreventDefault; OpenLinkText (Some "Note") "db.md" false] = [] ∨
  [PreventDefault; OpenLinkText (Some "Note") "db.md" false] = [PreventDefault] ∨
  ∃ x, opens x = true ∧
       [PreventDefault; OpenLinkText (Some "Note") "db.md" false]
       = [PreventDefault; x].
Proof.
  apply (onClick_effects_shape (Some "db.md") "db.md" (fun s => s)
           (fun _ _ => None) (click_on note_link None)).
  reflexivity.
Defined.

(** ** The header row *)

Lemma fmap_imap_const {X Y Z} (g : Y -> Z) (f : nat -> X -> Y) (k : X -> Z)
    (l : list X) :
  (∀ i x, g (f i x) = k x) -> g <$> imap f l = k <$> l.
Proof.
  revert f. induction l as [|x l IH]; intros f Hf; [done|].
  rewrite imap_cons, !fmap_cons, Hf. f_equal. apply IH. intros i y. apply Hf.
Qed.

(** X15: the header row shows every header of the group once: the headers
    that are not the add-column header first, in their order and as
    TableHeader cells numbered from 0 among themselves, then the add-column
    headers as plain cells. *)
Theorem render_headers_partition (ADD_COLUMN : string) (headers : list Header) :
  cell_header <$> render_headers ADD_COLUMN headers
  = filter (fun o => header_column_key o ≠ ADD_COLUMN) headers ++
    filter (fun o => header_column_key o = ADD_COLUMN) headers ∧
  cell_header <$> render_headers ADD_COLUMN headers ≡ₚ headers ∧
  (∀ c, c ∈ render_headers ADD_COLUMN headers ->
        (is_TableHeader c = true ↔
         header_column_key (cell_header c) ≠ ADD_COLUMN)) ∧
  (∀ i key h headerIndex,
     render_headers ADD_COLUMN headers !! i
     = Some (TableHeaderCell key h headerIndex) ->
     headerIndex = i ∧
     filter (fun o => header_column_key o ≠ ADD_COLUMN) headers !! i = Some h).
Proof.
  assert (cell_header <$> render_headers ADD_COLUMN headers
          = filter (fun o => header_column_key o ≠ ADD_COLUMN) headers ++
            filter (fun o => header_column_key o = ADD_COLUMN) headers) as Heq.
  { unfold render_headers. rewrite fmap_app.
    by rewrite !(fmap_imap_const cell_header _ (fun h => h)), !list_fmap_id. }
  split; [done|]. split; [|split].
  - rewrite Heq.
    rewrite <- (filter_app_complement
                  (fun o => header_column_key o ≠ ADD_COLUMN) headers) at 3.
    f_equiv. apply reflexive_eq, list_filter_iff. intros o. split.
    + intros -> Hne. by apply Hne.
    + apply dec_stable.
  - intros c Hc. unfold render_headers in Hc.
    apply elem_of_app in Hc as [Hc|Hc];
      apply elem_of_lookup_imap in Hc as (i & h & -> & Hh);
      apply list_elem_of_lookup_2, list_elem_of_filter in Hh as [Hkey _];
      simpl; [done|].
    split; [done|]. intros Hne. by destruct Hne.
  - intros i key h idx Hi. unfold render_headers in Hi.
    apply lookup_app_Some in Hi as [Hi|[_ Hi]];
      apply list_lookup_imap_Some in Hi as (h' & Hh & E); [|done].
    by simplify_eq.
Qed.
